(** * hashdict: a chained hash table for C strings

    A shallow embedding of [hashdict.c] / [hashdict.h] and the properties
    of its hash function, its four entry operations and its teardown.

    - A C string argument is a Rocq [string]: the bytes that sit behind the
      pointer.  Every C routine reads it up to the first NUL byte, so the
      model's [strlen], [strcmp] and [hd_hash] stop there as well.
    - A collision chain (a bucket pointer followed through the [next]
      links) is a Rocq list of nodes; the NULL pointer is the empty list.
    - What the C standard leaves to the implementation (width of
      [unsigned long], signedness of [char], size of a pointer) is a
      parameter, the record [abi].
    - A call whose behaviour C leaves undefined has the outcome
      [Undefined]; every other call returns a value and the new table. *)

From Stdlib Require Import ZArith Lia Ascii String List DecimalString.
From stdpp Require Import base tactics option list strings gmap.

Local Open Scope Z_scope.

(** ** Implementation-defined parameters *)

Record abi : Type := Abi {
  ulong_bits : Z;     (* width of unsigned long *)
  char_signed : bool; (* is plain char a signed type? *)
  sizeof_ptr : Z      (* sizeof(char * ) = sizeof(struct hd_entry * ) *)
}.

(** The C standard asks for at least 32 bits in [unsigned long]. *)
Definition abi_ok (A : abi) : Prop := 32 <= ulong_bits A /\ 0 < sizeof_ptr A.

(** x86-64 System V: the platform the CMake project builds on by default. *)
Definition lp64 : abi := {| ulong_bits := 64; char_signed := true; sizeof_ptr := 8 |}.
(** AArch64 Linux: plain char is unsigned. *)
Definition aarch64 : abi := {| ulong_bits := 64; char_signed := false; sizeof_ptr := 8 |}.
(** 32-bit x86. *)
Definition ilp32 : abi := {| ulong_bits := 32; char_signed := true; sizeof_ptr := 4 |}.

(** ** Machine integers *)

(** Conversion to [unsigned long]. *)
Definition to_ulong (A : abi) (x : Z) : Z := x mod 2 ^ ulong_bits A.
(** Conversion to [unsigned int] (32 bits). *)
Definition to_uint (x : Z) : Z := x mod 2 ^ 32.
(** Conversion to [int] (32 bits, two's complement wrap-around). *)
Definition to_int (x : Z) : Z := (x + 2 ^ 31) mod 2 ^ 32 - 2 ^ 31.

Definition UINT_MAX : Z := 2 ^ 32 - 1.
Definition INT_MIN : Z := - 2 ^ 31.
Definition INT_MAX : Z := 2 ^ 31 - 1.

(** ** hashdict.h *)

Definition HASHSIZE : Z := 1024.

(** sizeof(struct hd_entry): three pointers, no padding. *)
Definition sizeof_hd_entry (A : abi) : Z := 3 * sizeof_ptr A.

(** errno.h *)
Definition EINVAL : Z := 22.
Definition ENOMEM : Z := 12.

(** ** C strings *)

(** The byte as an [unsigned char]. *)
Definition uchar (c : ascii) : Z := Z.of_N (N_of_ascii c).

(** The byte read through a [const char *] and converted to [int]. *)
Definition char_to_int (A : abi) (c : ascii) : Z :=
  if char_signed A && (128 <=? uchar c) then uchar c - 256 else uchar c.

(** The text of a C string: the bytes in front of the first NUL. *)
Fixpoint c_str (s : string) : string :=
  match s with
  | EmptyString => EmptyString
  | String c rest => if uchar c =? 0 then EmptyString else String c (c_str rest)
  end.

Fixpoint strlen (s : string) : Z :=
  match s with
  | EmptyString => 0
  | String c rest => if uchar c =? 0 then 0 else 1 + strlen rest
  end.

(** [strcmp] compares as unsigned char and stops at the first difference or
    at the terminator.  Only the sign of a non-zero result is specified. *)
Fixpoint strcmp (a b : string) : Z :=
  match a, b with
  | EmptyString, EmptyString => 0
  | EmptyString, String cb _ => 0 - uchar cb
  | String ca _, EmptyString => uchar ca - 0
  | String ca ra, String cb rb =>
      if uchar ca =? uchar cb
      then (if uchar ca =? 0 then 0 else strcmp ra rb)
      else uchar ca - uchar cb
  end.

(** ** hd_hash *)

(** The loop [while ((c = *key++)) hash = ((hash << 5) + hash) + c;] *)
Fixpoint hd_hash_loop (A : abi) (key : string) (hash : Z) : Z :=
  match key with
  | EmptyString => hash
  | String ch rest =>
      let c := char_to_int A ch in
      if c =? 0 then hash
      else hd_hash_loop A rest
             (to_ulong A (to_ulong A (to_ulong A (Z.shiftl hash 5) + hash) + to_ulong A c))
  end.

Definition hd_hash (A : abi) (key : string) : Z :=
  to_uint (hd_hash_loop A key 5381 mod HASHSIZE).

(** The djb2 fold [hash = hash * 33 + c] in arithmetic modulo [m], each
    character [c] entering as the [int] that C makes of a plain [char]:
    sign-extended where plain char is signed. *)
Definition djb2_step (A : abi) (m : Z) (hash : Z) (c : ascii) : Z :=
  (hash * 33 + char_to_int A c) mod m.

Definition djb2 (A : abi) (m : Z) (s : string) : Z :=
  fold_left (djb2_step A m) (list_ascii_of_string s) 5381.

(** The fold as the documentation words it, [hash = hash * 33 + byte], on
    the bytes taken as unsigned 8-bit values. *)
Definition djb2_bytes (m : Z) (s : string) : Z :=
  fold_left (fun hash c => (hash * 33 + uchar c) mod m) (list_ascii_of_string s) 5381.

(** ** Outcomes

    [Undefined] stands for a call that runs into behaviour the C standard
    leaves undefined (a read through NULL or through released memory, a
    copy into NULL).  Nothing is said about the table after it. *)

Inductive outcome (X : Type) : Type :=
| Ret (x : X)
| Undefined.
Arguments Ret {X} x.
Arguments Undefined {X}.

#[global] Instance outcome_ret : MRet outcome := @Ret.
#[global] Instance outcome_bind : MBind outcome := fun X Y f c =>
  match c with
  | Ret x => f x
  | Undefined => Undefined
  end.

(** ** The data model *)

(** A node as the chain reaches it: a live [struct hd_entry] that owns its
    key and value copies, or a link into memory that was already passed to
    [free] (reading through it is undefined). *)
Inductive hd_entry : Type :=
| Entry (key value : string)
| Released.

Abbreviation chain := (list hd_entry).

Record hd_hashdict : Type := Dict {
  entries : list chain;   (* struct hd_entry *entries[HASHSIZE] *)
  num_entries : Z;        (* unsigned int *)
  collisions : Z;         (* unsigned int, DEBUG *)
  alloced_bytes : Z       (* int, DEBUG *)
}.

(** dict->entries[hash] *)
Definition bucket (d : hd_hashdict) (hash : Z) : chain :=
  default [] (entries d !! Z.to_nat hash).

(** dict->entries[hash] = c *)
Definition set_bucket (d : hd_hashdict) (hash : Z) (c : chain) : hd_hashdict :=
  {| entries := <[Z.to_nat hash := c]> (entries d);
     num_entries := num_entries d;
     collisions := collisions d;
     alloced_bytes := alloced_bytes d |}.

Definition set_num_entries (d : hd_hashdict) (n : Z) : hd_hashdict :=
  {| entries := entries d; num_entries := n;
     collisions := collisions d; alloced_bytes := alloced_bytes d |}.

Definition set_collisions (d : hd_hashdict) (n : Z) : hd_hashdict :=
  {| entries := entries d; num_entries := num_entries d;
     collisions := n; alloced_bytes := alloced_bytes d |}.

Definition set_alloced_bytes (d : hd_hashdict) (n : Z) : hd_hashdict :=
  {| entries := entries d; num_entries := num_entries d;
     collisions := collisions d; alloced_bytes := n |}.

(** ** hd_create *)

Definition hd_create : hd_hashdict :=
  {| entries := replicate (Z.to_nat HASHSIZE) [];
     num_entries := 0; collisions := 0; alloced_bytes := 0 |}.

(** ** hd_stralloc

    [m] tells whether [malloc] hands out memory.  The function does not
    test the pointer before [memcpy], so a failed [malloc] is a copy into
    NULL.  [str_len] is an [unsigned int]: when [strlen(str) + 1] does not
    fit, the copy is cut short and left without terminator, and each of
    the callers below runs [strlen] over it before it returns; that read
    past the block is reported here. A result [Some s] is the block
    holding the text [s] and its terminator; [None] would be NULL. *)
Definition hd_stralloc (m : bool) (str : option string) : outcome (option string) :=
  match str with
  | None => Undefined                       (* strlen(NULL) *)
  | Some s =>
      let str_len := to_uint (strlen s + 1) in
      if negb m then Undefined              (* memcpy(NULL, str, str_len) *)
      else if str_len =? strlen s + 1 then Ret (Some (c_str s))
      else Undefined
  end.

(** ** hd_lookup_entry *)

(** A pointer to an entry: the bucket it hangs from, its place in that
    chain, and the key and value read through it. *)
Record entry_ptr : Type := EntryPtr {
  ptr_bucket : Z;
  ptr_pos : nat;
  ptr_key : string;
  ptr_value : string
}.

(** The loop
    [while (strcmp(key, ( *entry_ptr)->key)) {
       if (( *entry_ptr)->next == NULL) return ...;
       entry_ptr = &(( *entry_ptr)->next); }]
    of [hd_lookup_entry], and of [hd_entry_remove] where it also keeps
    [prev_entry] (NULL exactly when the walk stops at position 0). *)
Fixpoint chain_walk (key : string) (hash : Z) (cur : hd_entry) (rest : chain)
    (pos : nat) {struct rest} : outcome (option entry_ptr) :=
  match cur with
  | Released => Undefined
  | Entry k v =>
      if negb (strcmp key k =? 0) then
        match rest with
        | [] => Ret None
        | nxt :: rest' => chain_walk key hash nxt rest' (S pos)
        end
      else Ret (Some (EntryPtr hash pos k v))
  end.

Definition hd_lookup_entry (A : abi) (dict : option hd_hashdict) (key : option string)
    : outcome (option entry_ptr) :=
  match dict, key with
  | Some d, Some k =>
      if num_entries d =? 0 then Ret None
      else
        let hash := hd_hash A k in
        match bucket d hash with
        | [] => Ret None
        | cur :: rest => chain_walk k hash cur rest 0
        end
  | _, _ => Ret None
  end.

(** ** hd_lookup *)

Definition hd_lookup (A : abi) (dict : option hd_hashdict) (key : option string)
    : outcome (option string) :=
  entry ← hd_lookup_entry A dict key;
  Ret (match entry with
       | Some e => Some (ptr_value e)
       | None => None
       end).

(** ** hd_entry_insert

    [alloced_bytes] is an [int] and the amounts added to it are [size_t]
    sums: the addition is done in [size_t] and converted back, which wraps
    modulo 2^32 into the range of [int] ([to_int]); [num_entries] and
    [collisions] are [unsigned int] ([to_uint]). *)

(** The loop [while (( *entry_ptr)->next != NULL) entry_ptr = &(( *entry_ptr)->next);]
    that takes [entry_ptr] to the last node of an occupied bucket. *)
Fixpoint tail_walk (cur : hd_entry) (rest : chain) {struct rest} : outcome unit :=
  match cur with
  | Released => Undefined
  | Entry _ _ =>
      match rest with
      | [] => Ret tt
      | nxt :: rest' => tail_walk nxt rest'
      end
  end.

(** The labels [err_valalloc: free(( *entry_ptr)->key);] and
    [err_keyalloc: free( *entry_ptr); return -ENOMEM;].  The node is
    released, the link that was just set to it (the bucket slot or the old
    tail's [next]) is not reset. *)
Definition err_keyalloc (d : hd_hashdict) (hash : Z) : Z * option hd_hashdict :=
  (- ENOMEM, Some (set_bucket d hash (bucket d hash ++ [Released]))).

Definition err_valalloc (d : hd_hashdict) (hash : Z) : Z * option hd_hashdict :=
  err_keyalloc d hash.

(** [m_node], [m_key], [m_val]: whether the [malloc] for the node, for the
    key copy and for the value copy hands out memory. *)
Definition hd_entry_insert (A : abi) (m_node m_key m_val : bool)
    (dict : option hd_hashdict) (key value : option string)
    : outcome (Z * option hd_hashdict) :=
  match dict, key with
  | Some d, Some k =>
      found ← hd_lookup_entry A dict key;
      match found with
      | Some _ => Ret (- EINVAL, dict)
      | None =>
          let hash := hd_hash A k in
          d1 ← match bucket d hash with
               | cur :: rest =>
                   _ ← tail_walk cur rest;
                   Ret (set_collisions d (to_uint (collisions d + 1)))
               | [] => Ret d
               end;
          (* ( *entry_ptr)->next = malloc(...) or dict->entries[hash] = malloc(...) *)
          if negb m_node then Ret (- ENOMEM, Some d1)
          else
            key_copy ← hd_stralloc m_key key;
            match key_copy with
            | None => Ret (err_keyalloc d1 hash)
            | Some kc =>
                value_copy ← hd_stralloc m_val value;
                match value_copy with
                | None => Ret (err_valalloc d1 hash)
                | Some vc =>
                    let d2 := set_bucket d1 hash (bucket d1 hash ++ [Entry kc vc]) in
                    let d3 := set_num_entries d2 (to_uint (num_entries d2 + 1)) in
                    Ret (0, Some (set_alloced_bytes d3
                           (to_int (alloced_bytes d3 +
                                    (strlen kc + 1 + strlen vc + 1 + sizeof_hd_entry A)))))
                end
            end
      end
  | _, _ => Ret (- EINVAL, dict)
  end.

(** ** hd_entry_remove

    [entry_ptr] is a [struct hd_entry **]: it addresses a link, the bucket
    slot [dict->entries[hash]] as long as [prev_entry] is NULL and
    [prev_entry->next] afterwards.  In a chain kept as a list, link [pos] is
    the one that holds the node at position [pos]; [ *entry_ptr] is whatever
    node that link holds when it is read. *)

(** The relinking: [dict->entries[hash] = ( *entry_ptr)->next] when
    [prev_entry] is NULL, [prev_entry->next = ( *entry_ptr)->next] otherwise.
    Either way the link written is the one [entry_ptr] addresses. *)
Definition unlink (c : chain) (pos : nat) : chain :=
  match pos with
  | O => drop 1 c
  | S p => take (S p) c ++ drop (S (S p)) c
  end.

(** After the relinking the function keeps reading through [entry_ptr]:
    [strlen(( *entry_ptr)->key)], [strlen(( *entry_ptr)->value)] and the three
    calls of [free] all reach the node the link holds by then, the successor
    of the match.  When the match was the last node of its chain the link
    holds NULL and [( *entry_ptr)->key] is a read through NULL.  Otherwise
    the successor is released while the link keeps pointing at it, and the
    matched node, out of the chain, is never released.  What hung behind the
    successor can only be reached through the released node. *)
Definition hd_entry_remove (A : abi) (dict : option hd_hashdict) (key : option string)
    : outcome (Z * option hd_hashdict) :=
  match dict, key with
  | Some d, Some k =>
      if num_entries d =? 0 then Ret (- EINVAL, dict)
      else
        let hash := hd_hash A k in
        match bucket d hash with
        | [] => Ret (- EINVAL, dict)
        | cur :: rest =>
            found ← chain_walk k hash cur rest 0;
            match found with
            | None => Ret (- EINVAL, dict)
            | Some e =>
                let pos := ptr_pos e in
                let d1 := set_bucket d hash (unlink (bucket d hash) pos) in
                let d2 := set_num_entries d1 (to_uint (num_entries d1 - 1)) in
                match bucket d2 hash !! pos with         (* *entry_ptr *)
                | None => Undefined                      (* strlen(NULL->key) *)
                | Some Released => Undefined
                | Some (Entry k' v') =>
                    let d3 := set_alloced_bytes d2
                                (to_int (alloced_bytes d2 -
                                         (strlen k' + strlen v' + sizeof_hd_entry A))) in
                    (* free( *entry_ptr) *)
                    Ret (0, Some (set_bucket d3 hash (take pos (bucket d3 hash) ++ [Released])))
                end
            end
        end
  | _, _ => Ret (- EINVAL, dict)
  end.

(** ** hd_entry_update *)

Definition hd_entry_update (A : abi) (m_val : bool)
    (dict : option hd_hashdict) (key value : option string)
    : outcome (Z * option hd_hashdict) :=
  entry ← hd_lookup_entry A dict key;
  match entry, dict with
  | Some e, Some d =>
      new_value ← hd_stralloc m_val value;
      match new_value with
      | None => Ret (- ENOMEM, dict)
      | Some nv =>
          let d1 := set_alloced_bytes d
                      (to_int (alloced_bytes d + (strlen nv - strlen (ptr_value e)))) in
          Ret (0, Some (set_bucket d1 (ptr_bucket e)
                          (<[ptr_pos e := Entry (ptr_key e) nv]> (bucket d1 (ptr_bucket e)))))
      end
  | _, _ => Ret (- EINVAL, dict)
  end.

(** ** hd_free_entry_list and hd_free *)

(** [sizeof(entry->key)] and [sizeof(entry->value)] are sizes of pointers. *)
Fixpoint hd_free_entry_list (A : abi) (entry : hd_entry) (next : chain)
    (d : hd_hashdict) {struct next} : outcome hd_hashdict :=
  match entry with
  | Released => Undefined
  | Entry _ _ =>
      d1 ← match next with
           | nxt :: next' => hd_free_entry_list A nxt next' d
           | [] => Ret d
           end;
      let d2 := set_alloced_bytes d1
                  (to_int (alloced_bytes d1 -
                           (sizeof_ptr A + sizeof_ptr A + sizeof_hd_entry A))) in
      Ret (set_num_entries d2 (to_uint (num_entries d2 - 1)))
  end.

(** [for (int i = 0; i < HASHSIZE; i++)], as the list of the indices left. *)
Fixpoint hd_free_loop (A : abi) (idx : list Z) (d : hd_hashdict) : outcome hd_hashdict :=
  match idx with
  | [] => Ret d
  | i :: idx' =>
      d1 ← match bucket d i with
           | cur :: rest =>
               d' ← hd_free_entry_list A cur rest d;
               Ret (set_bucket d' i [])
           | [] => Ret d
           end;
      hd_free_loop A idx' d1
  end.

Definition hd_free (A : abi) (dict : option hd_hashdict) : outcome (option hd_hashdict) :=
  match dict with
  | None => Ret None
  | Some d => d' ← hd_free_loop A (seqZ 0 HASHSIZE) d; Ret (Some d')
  end.

(** ** Sequences of calls on one table *)

Inductive op : Type :=
| OpInsert (m_node m_key m_val : bool) (key value : option string)
| OpRemove (key : option string)
| OpLookup (key : option string)
| OpUpdate (m_val : bool) (key value : option string).

(** One call on the table [d]; the caller drops the return value. *)
Definition step (A : abi) (d : hd_hashdict) (o : op) : outcome hd_hashdict :=
  match o with
  | OpInsert m_node m_key m_val key value =>
      r ← hd_entry_insert A m_node m_key m_val (Some d) key value; Ret (default d r.2)
  | OpRemove key =>
      r ← hd_entry_remove A (Some d) key; Ret (default d r.2)
  | OpLookup key =>
      _ ← hd_lookup A (Some d) key; Ret d
  | OpUpdate m_val key value =>
      r ← hd_entry_update A m_val (Some d) key value; Ret (default d r.2)
  end.

Fixpoint run (A : abi) (ops : list op) (d : hd_hashdict) : outcome hd_hashdict :=
  match ops with
  | [] => Ret d
  | o :: ops' => d' ← step A d o; run A ops' d'
  end.

(** The keys inserted and not yet removed, read off the calls alone.  An
    insert whose node allocation fails inserts nothing. *)
Definition live_step (s : gset string) (o : op) : gset string :=
  match o with
  | OpInsert true _ _ (Some k) _ => {[ c_str k ]} ∪ s
  | OpRemove (Some k) => s ∖ {[ c_str k ]}
  | _ => s
  end.

Definition live (ops : list op) : gset string := fold_left live_step ops ∅.

(** No remove of the sequence finds a node: its key is NULL or not among
    the keys [s] live at that point. *)
Fixpoint removes_miss (s : gset string) (ops : list op) : bool :=
  match ops with
  | [] => true
  | o :: ops' =>
      match o with
      | OpRemove (Some k) => bool_decide (c_str k ∉ s)
      | _ => true
      end && removes_miss (live_step s o) ops'
  end.

(** [strlen(s) + 1] fits the [unsigned int] that [hd_stralloc] keeps it in. *)
Definition fits (s : string) : bool := strlen s + 1 <=? UINT_MAX.

(** What an insert or an update needs to stay within defined behaviour on
    every valid table: its key is NULL, or its allocations succeed on
    strings that are there and fit (an insert whose node allocation fails
    returns before it copies).  A lookup needs nothing; a remove stays
    defined when it finds nothing to remove, which [removes_miss] says. *)
Definition string_ok (s : option string) : bool :=
  match s with
  | Some s => fits s
  | None => false
  end.

Definition op_defined (o : op) : bool :=
  match o with
  | OpInsert m_node m_key m_val (Some k) v =>
      negb m_node || (m_key && fits k && (m_val && string_ok v))
  | OpUpdate m_val (Some k) v => m_val && string_ok v
  | _ => true
  end.

(** ** Valid tables *)

Definition entry_key (e : hd_entry) : option string :=
  match e with
  | Entry k _ => Some k
  | Released => None
  end.

Definition chain_keys (c : chain) : list string := omap entry_key c.

(** A node of bucket [i]: live, holding NUL-terminated text, its key
    hashing to [i]. *)
Definition entry_wf (A : abi) (i : Z) (e : hd_entry) : Prop :=
  match e with
  | Entry k v => c_str k = k /\ c_str v = v /\ hd_hash A k = i
  | Released => False
  end.

Definition chain_wf (A : abi) (i : Z) (c : chain) : Prop :=
  Forall (entry_wf A i) c /\ NoDup (chain_keys c).

(** The nodes reachable across all chains. *)
Definition nodes (d : hd_hashdict) : chain := mjoin (entries d).
Definition node_count (d : hd_hashdict) : nat := length (nodes d).

Definition table_keys (d : hd_hashdict) : gset string :=
  list_to_set (chain_keys (nodes d)).

(** A valid table: HASHSIZE valid chains, [num_entries] the number of
    nodes, and the three counters within their C types. *)
Definition hd_wf (A : abi) (d : hd_hashdict) : Prop :=
  Forall2 (chain_wf A) (seqZ 0 HASHSIZE) (entries d) /\
  num_entries d = Z.of_nat (node_count d) /\
  num_entries d <= UINT_MAX /\
  0 <= collisions d <= UINT_MAX /\
  INT_MIN <= alloced_bytes d <= INT_MAX.

#[global] Instance entry_wf_dec A i e : Decision (entry_wf A i e).
Proof. destruct e; simpl; apply _. Defined.

#[global] Instance chain_wf_dec A i c : Decision (chain_wf A i c).
Proof. unfold chain_wf; apply _. Defined.

#[global] Instance hd_wf_dec A d : Decision (hd_wf A d).
Proof. unfold hd_wf; apply _. Defined.

(** The key [k] is stored in the table. *)
Definition stored (d : hd_hashdict) (k : string) : Prop :=
  exists v, Entry k v ∈ nodes d.

(** ** What the calls amount to on a valid table

    These say, without the walks, what a call leaves behind; the lemmas
    below show that the functions above agree with them. *)

(** The collision event that insert counts when the bucket is occupied. *)
Definition count_collision (d : hd_hashdict) (hash : Z) : hd_hashdict :=
  match bucket d hash with
  | [] => d
  | _ :: _ => set_collisions d (to_uint (collisions d + 1))
  end.

(** The table after a successful insert of [key] and [value]. *)
Definition inserted (A : abi) (d : hd_hashdict) (key value : string) : hd_hashdict :=
  let hash := hd_hash A key in
  {| entries := <[Z.to_nat hash := bucket d hash ++ [Entry (c_str key) (c_str value)]]> (entries d);
     num_entries := to_uint (num_entries d + 1);
     collisions := collisions (count_collision d hash);
     alloced_bytes := to_int (alloced_bytes d +
                              (strlen key + 1 + strlen value + 1 + sizeof_hd_entry A)) |}.

(** The table after a removal that found its key at position [pos] of
    bucket [hash], in front of a node holding [k'] and [v']: the chain ends
    in the link to that node, which is released. *)
Definition successor_released (A : abi) (d : hd_hashdict) (hash : Z) (pos : nat)
    (k' v' : string) : hd_hashdict :=
  {| entries := <[Z.to_nat hash := take pos (bucket d hash) ++ [Released]]> (entries d);
     num_entries := to_uint (num_entries d - 1);
     collisions := collisions d;
     alloced_bytes := to_int (alloced_bytes d - (strlen k' + strlen v' + sizeof_hd_entry A)) |}.

(** The table after the value of the node at [pos] of bucket [hash], holding
    [k] and [v], was replaced by [value]. *)
Definition updated (d : hd_hashdict) (hash : Z) (pos : nat) (k v value : string)
    : hd_hashdict :=
  {| entries := <[Z.to_nat hash := <[pos := Entry k (c_str value)]> (bucket d hash)]> (entries d);
     num_entries := num_entries d;
     collisions := collisions d;
     alloced_bytes := to_int (alloced_bytes d + (strlen value - strlen v)) |}.

(** The counters after [hd_free_entry_list] released [n] nodes. *)
Definition released (A : abi) (d : hd_hashdict) (n : nat) : hd_hashdict :=
  {| entries := entries d;
     num_entries := to_uint (num_entries d - Z.of_nat n);
     collisions := collisions d;
     alloced_bytes := to_int (alloced_bytes d -
                              Z.of_nat n * (sizeof_ptr A + sizeof_ptr A + sizeof_hd_entry A)) |}.

(** The table after the teardown. *)
Definition torn_down (A : abi) (d : hd_hashdict) : hd_hashdict :=
  {| entries := replicate (Z.to_nat HASHSIZE) [];
     num_entries := 0;
     collisions := collisions d;
     alloced_bytes := to_int (alloced_bytes d -
                              Z.of_nat (node_count d) *
                              (sizeof_ptr A + sizeof_ptr A + sizeof_hd_entry A)) |}.

(** ** The table as a finite map

    The view a user has of a table: which key texts it holds and the value
    text under each. *)

Definition entry_pair (e : hd_entry) : option (string * string) :=
  match e with
  | Entry k v => Some (k, v)
  | Released => None
  end.

Definition table_map (d : hd_hashdict) : gmap string string :=
  list_to_map (omap entry_pair (nodes d)).

(** What one call does to that view when it returns: an insert adds a key
    that is not there (its node allocation succeeding), an update overwrites
    a key that is there, a lookup and a remove that finds nothing change
    nothing. *)
Definition map_step (m : gmap string string) (o : op) : gmap string string :=
  match o with
  | OpInsert true _ _ (Some k) (Some v) =>
      match m !! c_str k with
      | None => <[c_str k := c_str v]> m
      | Some _ => m
      end
  | OpUpdate _ (Some k) (Some v) =>
      match m !! c_str k with
      | Some _ => <[c_str k := c_str v]> m
      | None => m
      end
  | _ => m
  end.

Definition map_run (ops : list op) : gmap string string := fold_left map_step ops ∅.

(** Insert every pair of a list, all allocations succeeding. *)
Definition insert_all (kvs : list (string * string)) : list op :=
  (fun kv => OpInsert true true true (Some kv.1) (Some kv.2)) <$> kvs.

(** ** The bytes behind a table

    What the allocator handed out for a node: the two strings with their
    terminators and the node itself. *)
Definition entry_bytes (A : abi) (e : hd_entry) : Z :=
  match e with
  | Entry k v => strlen k + 1 + strlen v + 1 + sizeof_hd_entry A
  | Released => 0
  end.

Definition chain_bytes (A : abi) (c : chain) : Z :=
  foldr (fun e acc => entry_bytes A e + acc) 0 c.

Definition live_bytes (A : abi) (d : hd_hashdict) : Z := chain_bytes A (nodes d).

(** ** hd_print

    The text [hd_print] writes to standard output.  The conversions of
    [printf] that it uses print a decimal number or a string and pad it
    with spaces to a minimum width, on the left ([pad_left]) or, with the
    flag [-], on the right ([pad_right]). *)

Definition nl : string := String (ascii_of_nat 10) EmptyString.

Fixpoint str_repeat (s : string) (n : nat) : string :=
  match n with
  | O => EmptyString
  | S n' => s +:+ str_repeat s n'
  end.

(** The first [n] bytes of a string, as [strncpy] copies them out of a
    string that is longer. *)
Fixpoint str_take (n : nat) (s : string) : string :=
  match n, s with
  | S n', String c rest => String c (str_take n' rest)
  | _, _ => EmptyString
  end.

(** The strings of a list, one after the other. *)
Definition str_concat (l : list string) : string := foldr String.append EmptyString l.

Definition dec (z : Z) : string := NilZero.string_of_int (Z.to_int z).

Definition pad_left (width : Z) (s : string) : string :=
  str_repeat " " (Z.to_nat width - String.length s) +:+ s.

Definition pad_right (width : Z) (s : string) : string :=
  s +:+ str_repeat " " (Z.to_nat width - String.length s).

Definition key_width : Z := 13.
Definition val_width : Z := 48.
Definition idx_width : Z := 6.

(** The statistics box. *)
Definition print_stats (d : hd_hashdict) : string :=
  "┌────────────────────────────────────────────────────────────┐" +:+ nl +:+
  "│ Dictionary Statistics                                      │" +:+ nl +:+
  "├────────────────────────────────────────────────────────────┤" +:+ nl +:+
  "│ Total entries: " +:+ pad_left 43 (dec (num_entries d)) +:+ " │" +:+ nl +:+
  "│ Collisions:    " +:+ pad_left 43 (dec (collisions d)) +:+ " │" +:+ nl +:+
  "│ Memory used:   " +:+ pad_left 43 (dec (alloced_bytes d)) +:+ " │" +:+ nl +:+
  "└────────────────────────────────────────────────────────────┘" +:+ nl +:+ nl.

(** [key_buf] and [val_buf]: the string itself when [strlen] is at most
    [width - 4], else its first [width - 4] bytes and three dots. *)
Definition print_cell (width : Z) (s : string) : string :=
  if strlen s >? width - 4
  then str_take (Z.to_nat (width - 4)) (c_str s) +:+ "..."
  else c_str s.

Definition print_row (i : Z) (e : hd_entry) : outcome string :=
  match e with
  | Released => Undefined
  | Entry k v =>
      Ret ("│ " +:+ pad_right idx_width (dec i) +:+
           " │ " +:+ pad_right key_width (print_cell key_width k) +:+
           " │ " +:+ pad_right val_width (print_cell val_width v) +:+
           " │" +:+ nl)
  end.

(** The loop over one chain, [while (entry != NULL)]. *)
Fixpoint print_chain (i : Z) (entry : chain) : outcome string :=
  match entry with
  | [] => Ret EmptyString
  | e :: next =>
      row ← print_row i e;
      rest ← print_chain i next;
      Ret (row +:+ rest)
  end.

(** The loop over the buckets, [for (int i = 0; i < HASHSIZE; i++)]. *)
Fixpoint print_buckets (idx : list Z) (d : hd_hashdict) : outcome string :=
  match idx with
  | [] => Ret EmptyString
  | i :: idx' =>
      rows ← print_chain i (bucket d i);
      rest ← print_buckets idx' d;
      Ret (rows +:+ rest)
  end.

Definition table_width : Z := idx_width + key_width + val_width + 10.

Definition print_table_head : string :=
  "┌" +:+ str_repeat "─" (Z.to_nat (table_width - 2)) +:+ "┐" +:+ nl +:+
  "│ " +:+ pad_right idx_width "Bucket" +:+
  " │ " +:+ pad_right key_width "Key" +:+
  " │ " +:+ pad_right val_width "Value" +:+ " │" +:+ nl +:+
  "├" +:+ str_repeat "─" (Z.to_nat (idx_width + 2)) +:+
  "┼" +:+ str_repeat "─" (Z.to_nat (key_width + 2)) +:+
  "┼" +:+ str_repeat "─" (Z.to_nat (val_width + 2)) +:+ "┤" +:+ nl.

Definition print_table_foot : string :=
  "└" +:+ str_repeat "─" (Z.to_nat (idx_width + 2)) +:+
  "┴" +:+ str_repeat "─" (Z.to_nat (key_width + 2)) +:+
  "┴" +:+ str_repeat "─" (Z.to_nat (val_width + 2)) +:+ "┘" +:+ nl.

Definition hd_print (dict : option hd_hashdict) : outcome string :=
  match dict with
  | None => Ret ("Dictionary is NULL" +:+ nl)
  | Some d =>
      if num_entries d =? 0
      then Ret (print_stats d +:+ "Dictionary is empty" +:+ nl)
      else
        rows ← print_buckets (seqZ 0 HASHSIZE) d;
        Ret (print_stats d +:+ print_table_head +:+ rows +:+ print_table_foot)
  end.

(** ** hashdict_demo.c

    [rand] is the sequence of numbers [rand()] returns (they are not
    negative) and [pos] counts the calls made so far; [srand] only chooses
    the sequence.  [m i] tells how the three allocations of the insert of
    round [i] turn out.  The model follows the table, the error count and
    the text of [hd_print]; the progress messages are left out. *)

Definition NUM_ENTRIES : Z := 1000.

Definition charset : string :=
  "abcdefghijklmnopqrstuvwxyzABCDEFGHIJKLMNOPQRSTUVWXYZ0123456789".

(** charset[index] *)
Definition charset_at (index : Z) : ascii :=
  default Ascii.zero (String.get (Z.to_nat index) charset).

(** [rand() % (sizeof(charset) - 1)] *)
Definition random_index (rand : nat -> N) (pos : nat) : Z :=
  Z.of_N (rand pos) mod Z.of_nat (String.length charset).

(** The loop [for (int i = 0; i < length - 1; i++) buffer[i] = charset[index];]
    for the [n] rounds that are left. *)
Fixpoint random_chars (rand : nat -> N) (pos : nat) (n : nat) : string :=
  match n with
  | O => EmptyString
  | S n' => String (charset_at (random_index rand pos)) (random_chars rand (S pos) n')
  end.

(** [generate_random_string(buffer, length)] on a buffer of [size] bytes:
    the text left in the buffer and the new call count.  The terminator
    goes to [buffer[length - 1]], which has to be inside the buffer. *)
Definition generate_random_string (rand : nat -> N) (pos : nat) (size length : Z)
    : outcome (string * nat) :=
  if (1 <=? length) && (length <=? size)
  then Ret (random_chars rand pos (Z.to_nat (length - 1)),
            (pos + Z.to_nat (length - 1))%nat)
  else Undefined.

(** One round of the loop of [main]. *)
Definition demo_round (A : abi) (rand : nat -> N) (m : bool * bool * bool)
    (pos : nat) (d : hd_hashdict) (error_count : Z)
    : outcome (nat * hd_hashdict * Z) :=
  let key_length := 5 + Z.of_N (rand pos) mod 11 in
  kp ← generate_random_string rand (S pos) 20 key_length;
  let value_length := 10 + Z.of_N (rand kp.2) mod 71 in
  vp ← generate_random_string rand (S kp.2) 100 value_length;
  r ← hd_entry_insert A m.1.1 m.1.2 m.2 (Some d) (Some kp.1) (Some vp.1);
  Ret (vp.2, default d r.2, if r.1 =? 0 then error_count else error_count + 1).

(** The loop [for (int i = 0; i < NUM_ENTRIES; i++)], [n] rounds from
    round [i] on. *)
Fixpoint demo_loop (A : abi) (rand : nat -> N) (m : nat -> bool * bool * bool)
    (n : nat) (i : nat) (pos : nat) (d : hd_hashdict) (error_count : Z)
    : outcome (nat * hd_hashdict * Z) :=
  match n with
  | O => Ret (pos, d, error_count)
  | S n' =>
      st ← demo_round A rand (m i) pos d error_count;
      demo_loop A rand m n' (S i) st.1.1 st.1.2 st.2
  end.

Record demo_result : Type := DemoResult {
  demo_errors : Z;           (* error_count after the loop *)
  demo_filled : hd_hashdict; (* the table after the loop *)
  demo_text : string;        (* what hd_print wrote *)
  demo_freed : option hd_hashdict; (* the table after hd_free *)
  demo_return : Z
}.

Definition demo_main (A : abi) (rand : nat -> N) (m : nat -> bool * bool * bool)
    : outcome demo_result :=
  st ← demo_loop A rand m (Z.to_nat NUM_ENTRIES) 0 0 hd_create 0;
  text ← hd_print (Some st.1.2);
  freed ← hd_free A (Some st.1.2);
  Ret (DemoResult st.2 st.1.2 text freed 0).

(** What the loop of [main] keeps true from round to round: a valid table,
    every round so far counted as an entry or as an error, and keys and
    values of the generated lengths. *)
Definition demo_inv (A : abi) (i : Z) (d : hd_hashdict) (error_count : Z) : Prop :=
  hd_wf A d /\ num_entries d + error_count = i /\ 0 <= error_count /\
  forall k v, Entry k v ∈ nodes d -> 4 <= strlen k <= 14 /\ 9 <= strlen v <= 79.

(** * Properties *)

(** ** Machine integers *)

Lemma to_uint_small x : 0 <= x <= UINT_MAX -> to_uint x = x.
Proof. unfold to_uint, UINT_MAX. intros H. apply Z.mod_small. lia. Qed.

Lemma to_uint_range x : 0 <= to_uint x <= UINT_MAX.
Proof.
  unfold to_uint, UINT_MAX.
  pose proof (Z.mod_pos_bound x (2 ^ 32) ltac:(lia)). lia.
Qed.

Lemma to_int_small x : INT_MIN <= x <= INT_MAX -> to_int x = x.
Proof.
  unfold to_int, INT_MIN, INT_MAX. intros H.
  rewrite Z.mod_small; lia.
Qed.

Lemma to_int_range x : INT_MIN <= to_int x <= INT_MAX.
Proof.
  unfold to_int, INT_MIN, INT_MAX.
  pose proof (Z.mod_pos_bound (x + 2 ^ 31) (2 ^ 32) ltac:(lia)). lia.
Qed.

Lemma to_uint_sub x y : to_uint (to_uint x - y) = to_uint (x - y).
Proof. unfold to_uint. apply Zminus_mod_idemp_l. Qed.

Lemma to_int_sub x y : to_int (to_int x - y) = to_int (x - y).
Proof.
  unfold to_int. f_equal.
  replace ((x + 2 ^ 31) mod 2 ^ 32 - 2 ^ 31 - y + 2 ^ 31)
    with ((x + 2 ^ 31) mod 2 ^ 32 - y) by lia.
  rewrite Zminus_mod_idemp_l. f_equal. lia.
Qed.

(** ** C strings *)

Lemma uchar_range c : 0 <= uchar c < 256.
Proof. unfold uchar. pose proof (N_ascii_bounded c). lia. Qed.

Lemma uchar_inj c1 c2 : uchar c1 = uchar c2 -> c1 = c2.
Proof.
  unfold uchar. intros H. apply N2Z.inj in H.
  rewrite <- (ascii_N_embedding c1), <- (ascii_N_embedding c2). by rewrite H.
Qed.

Lemma char_to_int_zero A c : char_to_int A c = 0 <-> uchar c = 0.
Proof.
  unfold char_to_int. pose proof (uchar_range c).
  destruct (char_signed A); simpl; [|done].
  destruct (Z.leb_spec 128 (uchar c)); lia.
Qed.

Lemma char_to_int_unsigned A c :
  char_signed A = false \/ uchar c < 128 -> char_to_int A c = uchar c.
Proof.
  unfold char_to_int. intros [-> | H]; [done|].
  destruct (Z.leb_spec 128 (uchar c)); [lia|]. by rewrite andb_false_r.
Qed.

Lemma c_str_idemp s : c_str (c_str s) = c_str s.
Proof.
  induction s as [|c s IH]; [done|]. simpl.
  destruct (uchar c =? 0) eqn:E; [done|]. simpl. by rewrite E, IH.
Qed.

Lemma strlen_c_str s : strlen (c_str s) = strlen s.
Proof.
  induction s as [|c s IH]; [done|]. simpl.
  destruct (uchar c =? 0) eqn:E; [done|]. simpl. by rewrite E, IH.
Qed.

Lemma strlen_length s : strlen s = Z.of_nat (String.length (c_str s)).
Proof.
  induction s as [|c s IH]; [done|]. simpl.
  destruct (uchar c =? 0); simpl; lia.
Qed.

Lemma strlen_nonneg s : 0 <= strlen s.
Proof. rewrite strlen_length. lia. Qed.

(** [strcmp] answers 0 exactly on equal texts. *)
Lemma strcmp_eq a b : strcmp a b = 0 <-> c_str a = c_str b.
Proof.
  revert b. induction a as [|ca a IH]; intros [|cb b]; simpl.
  - done.
  - pose proof (uchar_range cb). destruct (Z.eqb_spec (uchar cb) 0); split; (done || lia).
  - pose proof (uchar_range ca). destruct (Z.eqb_spec (uchar ca) 0); split; (done || lia).
  - destruct (Z.eqb_spec (uchar ca) (uchar cb)) as [Hc|Hc].
    + rewrite <- Hc. destruct (Z.eqb_spec (uchar ca) 0) as [Hz|Hz]; [done|].
      apply uchar_inj in Hc as <-. rewrite IH. split; [by intros ->|by intros [= ->]].
    + destruct (Z.eqb_spec (uchar ca) 0), (Z.eqb_spec (uchar cb) 0);
        split; try lia; try done.
      intros [= Hcc _]. by subst.
Qed.

Lemma strcmp_refl k : strcmp k k = 0.
Proof. by apply strcmp_eq. Qed.

(** ** hd_hash *)

Lemma hd_hash_loop_c_str A key h : hd_hash_loop A (c_str key) h = hd_hash_loop A key h.
Proof.
  revert h. induction key as [|c key IH]; intros h; [done|]. simpl.
  destruct (Z.eqb_spec (uchar c) 0) as [Hz|Hz].
  - apply (char_to_int_zero A) in Hz. by rewrite Hz.
  - simpl. by rewrite IH.
Qed.

Lemma hd_hash_c_str A key : hd_hash A (c_str key) = hd_hash A key.
Proof. unfold hd_hash. by rewrite hd_hash_loop_c_str. Qed.

Lemma ulong_step A h c :
  to_ulong A (to_ulong A (to_ulong A (Z.shiftl h 5) + h) + to_ulong A c)
  = (h * 33 + c) mod 2 ^ ulong_bits A.
Proof.
  unfold to_ulong. rewrite Z.shiftl_mul_pow2 by lia.
  rewrite Zplus_mod_idemp_r, Zplus_mod_idemp_l.
  rewrite <- Z.add_assoc, Zplus_mod_idemp_l.
  f_equal. lia.
Qed.

Lemma hd_hash_loop_fold A key h :
  hd_hash_loop A key h
  = fold_left (djb2_step A (2 ^ ulong_bits A)) (list_ascii_of_string (c_str key)) h.
Proof.
  revert h. induction key as [|c key IH]; intros h; [done|]. simpl.
  destruct (Z.eqb_spec (char_to_int A c) 0) as [Hz|Hz].
  - apply char_to_int_zero in Hz. by rewrite Hz.
  - destruct (Z.eqb_spec (uchar c) 0) as [Hu|Hu].
    + by apply (char_to_int_zero A) in Hu.
    + simpl. rewrite IH. by rewrite ulong_step.
Qed.

Lemma djb2_fold_narrow A m l h h' :
  (HASHSIZE | m) -> 0 < m -> h mod HASHSIZE = h' mod HASHSIZE ->
  fold_left (djb2_step A m) l h mod HASHSIZE
  = fold_left (djb2_step A HASHSIZE) l h' mod HASHSIZE.
Proof.
  intros Hdiv Hm. revert h h'. induction l as [|c l IH]; intros h h' Hh; [done|].
  simpl. apply IH. unfold djb2_step.
  rewrite Z.mod_mod_divide by done.
  rewrite Zmod_mod.
  rewrite (Zplus_mod (h * 33)), (Zplus_mod (h' * 33)).
  rewrite (Zmult_mod h), (Zmult_mod h'). by rewrite Hh.
Qed.

Lemma hd_hash_range A key : 0 <= hd_hash A key < HASHSIZE.
Proof.
  unfold hd_hash.
  pose proof (Z.mod_pos_bound (hd_hash_loop A key 5381) HASHSIZE) as H.
  unfold HASHSIZE in *. rewrite to_uint_small; unfold UINT_MAX; lia.
Qed.

Lemma djb2_bytes_eq A m s :
  char_signed A = false \/ Forall (fun c => uchar c < 128) (list_ascii_of_string s) ->
  djb2 A m s = djb2_bytes m s.
Proof.
  unfold djb2, djb2_bytes. generalize 5381.
  induction (list_ascii_of_string s) as [|c l IH]; intros h H; [done|].
  simpl. unfold djb2_step at 2. rewrite char_to_int_unsigned.
  - apply IH. destruct H as [H|H]; [by left|right]. by inversion H.
  - destruct H as [H|H]; [by left|right]. by inversion H.
Qed.

(** C8 (amended).  For every key, the empty one included, [hd_hash] is a function of
    the key's text alone, lands in [0, HASHSIZE) with HASHSIZE = 1024, and
    is the djb2 fold from the seed 5381 with [hash = hash * 33 + c] in the
    wrap-around arithmetic of [unsigned long], reduced modulo HASHSIZE; the
    width of [unsigned long] does not show in the result.  Each character
    enters with the value C reads through [const char *]; it is the 8-bit
    byte value wherever plain char is unsigned or the byte is below 0x80. *)
Theorem hd_hash_djb2 (A : abi) (key : string) :
  32 <= ulong_bits A ->
  HASHSIZE = 1024 /\
  0 <= hd_hash A key < HASHSIZE /\
  hd_hash A key = djb2 A (2 ^ ulong_bits A) (c_str key) mod HASHSIZE /\
  hd_hash A key = djb2 A HASHSIZE (c_str key) mod HASHSIZE /\
  hd_hash A EmptyString = 5381 mod HASHSIZE /\
  (forall key', c_str key' = c_str key -> hd_hash A key' = hd_hash A key) /\
  (char_signed A = false \/
   Forall (fun c => uchar c < 128) (list_ascii_of_string (c_str key)) ->
   hd_hash A key = djb2_bytes (2 ^ ulong_bits A) (c_str key) mod HASHSIZE).
Proof.
  intros Hw.
  assert (Hfold : hd_hash A key = djb2 A (2 ^ ulong_bits A) (c_str key) mod HASHSIZE).
  { unfold hd_hash. rewrite to_uint_small, hd_hash_loop_fold; [done|].
    pose proof (Z.mod_pos_bound (hd_hash_loop A key 5381) HASHSIZE).
    unfold UINT_MAX, HASHSIZE in *. lia. }
  split; [done|]. split; [apply hd_hash_range|]. split; [done|].
  split; [|split; [|split]].
  - rewrite Hfold. unfold djb2. apply djb2_fold_narrow; [|lia|done].
    exists (2 ^ (ulong_bits A - 10)). unfold HASHSIZE.
    change 1024 with (2 ^ 10). rewrite <- Z.pow_add_r by lia. f_equal. lia.
  - done.
  - intros key' Hk. by rewrite <- (hd_hash_c_str A key'), Hk, hd_hash_c_str.
  - intros H. rewrite Hfold. by rewrite (djb2_bytes_eq A).
Qed.

Lemma hd_hash_djb2_witness :
  hd_hash lp64 "key" = djb2 lp64 HASHSIZE "key" mod HASHSIZE.
Proof.
  pose proof (hd_hash_djb2 lp64 "key" ltac:(simpl; lia)) as (_ & _ & _ & H & _).
  exact H.
Defined.

(** C8 as worded, with [hash * 33 + byte] on the 8-bit value of each byte,
    fails where plain char is signed.  The key made of the one byte 0xE9:
    [c = *str++] assigns the char to an [int] and gives -23, so the hash is
    (5381 * 33 - 23) mod 1024 = 398, where the fold over byte values gives
    (5381 * 33 + 233) mod 1024 = 654. *)
Lemma hd_hash_not_bytewise :
  hd_hash lp64 (String (ascii_of_nat 233) EmptyString) = 398 /\
  djb2_bytes (2 ^ ulong_bits lp64) (String (ascii_of_nat 233) EmptyString) mod HASHSIZE = 654 /\
  hd_hash lp64 (String (ascii_of_nat 233) EmptyString)
  <> djb2_bytes (2 ^ ulong_bits lp64) (String (ascii_of_nat 233) EmptyString) mod HASHSIZE.
Proof. split; [|split]; [vm_compute; reflexivity..|vm_compute; discriminate]. Qed.

(** ** Buckets of a valid table *)

Lemma wf_length A d : hd_wf A d -> length (entries d) = Z.to_nat HASHSIZE.
Proof. intros (H & _). apply Forall2_length in H. by rewrite length_seqZ in H. Qed.

Lemma wf_lookup A d (i : nat) c :
  hd_wf A d -> entries d !! i = Some c -> chain_wf A (Z.of_nat i) c.
Proof.
  intros (H & _) Hc.
  destruct (Forall2_lookup_r _ _ _ _ _ H Hc) as (x & Hx & Hwf).
  apply lookup_seqZ in Hx as [-> _]. by rewrite Z.add_0_l in Hwf.
Qed.

Lemma bucket_lookup A d h :
  hd_wf A d -> 0 <= h < HASHSIZE -> entries d !! Z.to_nat h = Some (bucket d h).
Proof.
  intros Hwf Hh. unfold bucket.
  destruct (lookup_lt_is_Some_2 (entries d) (Z.to_nat h)) as [c Hc].
  - rewrite (wf_length A d Hwf). lia.
  - by rewrite Hc.
Qed.

Lemma wf_bucket A d h : hd_wf A d -> 0 <= h < HASHSIZE -> chain_wf A h (bucket d h).
Proof.
  intros Hwf Hh. pose proof (wf_lookup A d _ _ Hwf (bucket_lookup A d h Hwf Hh)) as H.
  by rewrite Z2Nat.id in H by lia.
Qed.

Lemma entry_wf_inv A i e :
  entry_wf A i e -> exists k v, e = Entry k v /\ c_str k = k /\ c_str v = v /\ hd_hash A k = i.
Proof. destruct e as [k v|]; [|done]. intros (? & ? & ?). by exists k, v. Qed.

Lemma chain_keys_elem (c : chain) k : k ∈ chain_keys c <-> exists v, Entry k v ∈ c.
Proof.
  unfold chain_keys. rewrite list_elem_of_omap. split.
  - intros ([k' v|] & Hin & Hk); [|done]. injection Hk as ->. by exists v.
  - intros (v & Hin). by exists (Entry k v).
Qed.

Lemma stored_iff d k :
  stored d k <-> exists (i : nat) c v, entries d !! i = Some c /\ Entry k v ∈ c.
Proof.
  unfold stored, nodes. split.
  - intros (v & Hin). apply list_elem_of_join in Hin as (c & Hin & Hc).
    apply list_elem_of_lookup in Hc as (i & Hi). by exists i, c, v.
  - intros (i & c & v & Hi & Hin). exists v. apply list_elem_of_join.
    exists c. split; [done|]. by apply list_elem_of_lookup_2 in Hi.
Qed.

Lemma table_keys_elem d k : k ∈ table_keys d <-> stored d k.
Proof. unfold table_keys. by rewrite elem_of_list_to_set, chain_keys_elem. Qed.

(** Chain membership is exact: a stored key sits in the bucket of its hash. *)
Lemma stored_bucket A d key :
  hd_wf A d ->
  stored d (c_str key) <-> c_str key ∈ chain_keys (bucket d (hd_hash A key)).
Proof.
  intros Hwf. rewrite chain_keys_elem, stored_iff. split.
  - intros (i & c & v & Hi & Hin). exists v.
    pose proof (wf_lookup A d i c Hwf Hi) as [Hall _].
    rewrite Forall_forall in Hall. destruct (Hall _ Hin) as (_ & _ & Hh).
    rewrite hd_hash_c_str in Hh. unfold bucket. by rewrite Hh, Nat2Z.id, Hi.
  - intros (v & Hin). exists (Z.to_nat (hd_hash A key)), (bucket d (hd_hash A key)), v.
    split; [|done]. apply (bucket_lookup A); [done|apply hd_hash_range].
Qed.

(** ** The chain walks *)

Lemma chain_walk_spec A i key hash cur rest pos :
  Forall (entry_wf A i) (cur :: rest) ->
  (exists pre v post,
      cur :: rest = pre ++ Entry (c_str key) v :: post /\
      (c_str key ∉ chain_keys pre) /\
      chain_walk key hash cur rest pos
      = Ret (Some (EntryPtr hash (pos + length pre) (c_str key) v)))
  \/ ((c_str key ∉ chain_keys (cur :: rest)) /\ chain_walk key hash cur rest pos = Ret None).
Proof.
  revert cur pos. induction rest as [|nxt rest IH]; intros cur pos Hall.
  - apply Forall_cons in Hall as [Hcur _].
    apply entry_wf_inv in Hcur as (k & v & -> & Hk & _). simpl.
    destruct (Z.eqb_spec (strcmp key k) 0) as [He|He]; simpl.
    + left. exists [], v, []. apply strcmp_eq in He. rewrite Hk in He.
      rewrite He, Nat.add_0_r. split; [done|]. split; [|done]. apply not_elem_of_nil.
    + right. split; [|done]. rewrite strcmp_eq, Hk in He.
      unfold chain_keys. simpl. rewrite list_elem_of_singleton. done.
  - apply Forall_cons in Hall as [Hcur Hrest].
    apply entry_wf_inv in Hcur as (k & v & -> & Hk & _). simpl.
    destruct (Z.eqb_spec (strcmp key k) 0) as [He|He]; simpl.
    + left. exists [], v, (nxt :: rest). apply strcmp_eq in He. rewrite Hk in He.
      rewrite He, Nat.add_0_r. split; [done|]. split; [|done]. apply not_elem_of_nil.
    + rewrite strcmp_eq, Hk in He.
      destruct (IH nxt (S pos) Hrest) as [(pre & v' & post & Heq & Hpre & Hw)|[Hno Hw]].
      * left. exists (Entry k v :: pre), v', post. rewrite Heq. split; [done|].
        split.
        -- unfold chain_keys. simpl. rewrite not_elem_of_cons. done.
        -- rewrite Hw. simpl. do 3 f_equal. lia.
      * right. split; [|done]. unfold chain_keys in *. simpl.
        rewrite not_elem_of_cons. done.
Qed.

Lemma tail_walk_wf A i cur rest :
  Forall (entry_wf A i) (cur :: rest) -> tail_walk cur rest = Ret tt.
Proof.
  revert cur. induction rest as [|nxt rest IH]; intros cur Hall;
    apply Forall_cons in Hall as [Hcur Hrest];
    apply entry_wf_inv in Hcur as (k & v & -> & _); simpl; [done|by apply IH].
Qed.

(** ** hd_lookup_entry on a valid table *)

Lemma wf_no_nodes A d : hd_wf A d -> num_entries d = 0 -> forall k, ~ stored d k.
Proof.
  intros (_ & Hn & _) H0 k (v & Hin). unfold node_count in Hn.
  destruct (nodes d); [by apply elem_of_nil in Hin|]. simpl in Hn. lia.
Qed.

Lemma hd_lookup_entry_found A d key :
  hd_wf A d -> stored d (c_str key) ->
  exists pre v post,
    bucket d (hd_hash A key) = pre ++ Entry (c_str key) v :: post /\
    (c_str key ∉ chain_keys pre) /\ (c_str key ∉ chain_keys post) /\
    hd_lookup_entry A (Some d) (Some key)
    = Ret (Some (EntryPtr (hd_hash A key) (length pre) (c_str key) v)).
Proof.
  intros Hwf Hst. unfold hd_lookup_entry.
  destruct (Z.eqb_spec (num_entries d) 0) as [H0|_].
  { by destruct (wf_no_nodes A d Hwf H0 _ Hst). }
  pose proof (wf_bucket A d _ Hwf (hd_hash_range A key)) as [Hall Hnd].
  apply (stored_bucket A) in Hst; [|done].
  destruct (bucket d (hd_hash A key)) as [|cur rest] eqn:Hb.
  { by apply elem_of_nil in Hst. }
  destruct (chain_walk_spec A _ key (hd_hash A key) cur rest 0%nat Hall)
    as [(pre & v & post & Heq & Hpre & Hw)|[Hno _]]; [|done].
  exists pre, v, post. rewrite Hw, Heq. repeat split; try done.
  rewrite Heq in Hnd. unfold chain_keys in Hnd. rewrite omap_app in Hnd. simpl in Hnd.
  apply NoDup_app in Hnd as (_ & _ & Hnd). by apply NoDup_cons in Hnd as [? _].
Qed.

Lemma hd_lookup_entry_missing A d key :
  hd_wf A d -> ~ stored d (c_str key) ->
  hd_lookup_entry A (Some d) (Some key) = Ret None.
Proof.
  intros Hwf Hst. unfold hd_lookup_entry.
  destruct (num_entries d =? 0); [done|].
  pose proof (wf_bucket A d _ Hwf (hd_hash_range A key)) as [Hall _].
  rewrite (stored_bucket A) in Hst by done.
  destruct (bucket d (hd_hash A key)) as [|cur rest] eqn:Hb; [done|].
  destruct (chain_walk_spec A _ key (hd_hash A key) cur rest 0%nat Hall)
    as [(pre & v & post & Heq & Hpre & Hw)|[_ Hw]]; [|done].
  destruct Hst. rewrite Heq. unfold chain_keys. rewrite omap_app. simpl.
  apply elem_of_app. right. apply elem_of_cons. by left.
Qed.

Lemma stored_dec d k : Decision (stored d k).
Proof.
  destruct (decide (k ∈ table_keys d)) as [H|H]; [left|right];
    by rewrite <- table_keys_elem.
Qed.

(** On a valid table a lookup always returns, and it finds a key exactly
    when that key is stored. *)
Lemma hd_lookup_stored A d key :
  hd_wf A d ->
  (exists v, Entry (c_str key) v ∈ bucket d (hd_hash A key) /\
             hd_lookup A (Some d) (Some key) = Ret (Some v))
  \/ (~ stored d (c_str key) /\ hd_lookup A (Some d) (Some key) = Ret None).
Proof.
  intros Hwf. unfold hd_lookup. destruct (stored_dec d (c_str key)) as [Hst|Hst].
  - left. destruct (hd_lookup_entry_found A d key Hwf Hst)
      as (pre & v & post & Hb & _ & _ & ->).
    exists v. split; [|done]. rewrite Hb. apply elem_of_app. right. apply elem_of_cons. by left.
  - right. by rewrite (hd_lookup_entry_missing A d key Hwf Hst).
Qed.

(** ** hd_stralloc *)

Arguments hd_stralloc : simpl never.

Lemma hd_stralloc_eq m s :
  hd_stralloc m (Some s) = if m && fits s then Ret (Some (c_str s)) else Undefined.
Proof.
  unfold hd_stralloc, fits. destruct m; simpl; [|done].
  pose proof (strlen_nonneg s). pose proof (to_uint_range (strlen s + 1)).
  destruct (Z.leb_spec (strlen s + 1) UINT_MAX).
  - rewrite to_uint_small by lia. by rewrite Z.eqb_refl.
  - destruct (Z.eqb_spec (to_uint (strlen s + 1)) (strlen s + 1)); [lia|done].
Qed.

(** [hd_stralloc] never hands NULL back: the tests [== NULL] that follow its
    calls cannot fire. *)
Lemma hd_stralloc_never_null m str : hd_stralloc m str <> Ret None.
Proof.
  destruct str as [s|]; [|done]. rewrite hd_stralloc_eq. by destruct (m && fits s).
Qed.

(** ** hd_entry_insert on a valid table *)

Lemma hd_entry_insert_eq A m_node m_key m_val d key value :
  hd_wf A d ->
  hd_entry_insert A m_node m_key m_val (Some d) (Some key) value =
  if decide (c_str key ∈ table_keys d) then Ret (- EINVAL, Some d)
  else if negb m_node then Ret (- ENOMEM, Some (count_collision d (hd_hash A key)))
  else match value with
       | Some v =>
           if m_key && fits key && (m_val && fits v)
           then Ret (0, Some (inserted A d key v))
           else Undefined
       | None => Undefined
       end.
Proof.
  intros Hwf. unfold hd_entry_insert.
  destruct (decide (c_str key ∈ table_keys d)) as [Hst|Hst]; rewrite table_keys_elem in Hst.
  { destruct (hd_lookup_entry_found A d key Hwf Hst) as (pre & v & post & _ & _ & _ & ->).
    done. }
  rewrite (hd_lookup_entry_missing A d key Hwf Hst). simpl.
  pose proof (wf_bucket A d _ Hwf (hd_hash_range A key)) as [Hall _].
  assert (Hd1 : match bucket d (hd_hash A key) with
                | cur :: rest =>
                    tail_walk cur rest ≫= λ _, Ret (set_collisions d (to_uint (collisions d + 1)))
                | [] => Ret d
                end = Ret (count_collision d (hd_hash A key))).
  { unfold count_collision. destruct (bucket d (hd_hash A key)) as [|cur rest]; [done|].
    by rewrite (tail_walk_wf A _ cur rest Hall). }
  rewrite Hd1. simpl. destruct m_node; simpl; [|done].
  rewrite hd_stralloc_eq. destruct (m_key && fits key); simpl; [|by destruct value].
  destruct value as [v|]; [|done].
  rewrite hd_stralloc_eq. destruct (m_val && fits v); simpl; [|done].
  do 3 f_equal. unfold inserted, count_collision, set_alloced_bytes, set_num_entries, set_bucket.
  rewrite !strlen_c_str.
  destruct (bucket d (hd_hash A key)) eqn:Hb; simpl; unfold bucket in *; simpl; by rewrite ?Hb.
Qed.

(** ** Replacing one bucket *)

Lemma nodes_insert (es : list chain) (n : nat) c c' :
  es !! n = Some c ->
  mjoin es = mjoin (take n es) ++ c ++ mjoin (drop (S n) es) /\
  mjoin (<[n := c']> es) = mjoin (take n es) ++ c' ++ mjoin (drop (S n) es).
Proof.
  intros Hn. split.
  - rewrite <- (take_drop_middle es n c Hn) at 1. by rewrite join_app.
  - rewrite insert_take_drop by (by eapply lookup_lt_Some). by rewrite join_app.
Qed.

Lemma node_count_insert (es : list chain) (n : nat) c c' :
  es !! n = Some c ->
  (length (mjoin (<[n := c']> es)) + length c = length (mjoin es) + length c')%nat.
Proof.
  intros Hn. destruct (nodes_insert es n c c' Hn) as [-> ->].
  rewrite !length_app. lia.
Qed.

Lemma keys_insert (es : list chain) (n : nat) c :
  es !! n = Some c ->
  exists K1 K2 : gset string, forall c',
    list_to_set (chain_keys (mjoin (<[n := c']> es)))
    = K1 ∪ list_to_set (chain_keys c') ∪ K2.
Proof.
  intros Hn.
  exists (list_to_set (chain_keys (mjoin (take n es)))),
         (list_to_set (chain_keys (mjoin (drop (S n) es)))).
  intros c'. destruct (nodes_insert es n c c' Hn) as [_ ->].
  unfold chain_keys. rewrite !omap_app, !list_to_set_app_L. by rewrite (assoc_L (∪)).
Qed.

Lemma wf_replace A d d' h c' :
  hd_wf A d -> 0 <= h < HASHSIZE -> chain_wf A h c' ->
  entries d' = <[Z.to_nat h := c']> (entries d) ->
  num_entries d' + Z.of_nat (length (bucket d h)) = num_entries d + Z.of_nat (length c') ->
  num_entries d' <= UINT_MAX ->
  0 <= collisions d' <= UINT_MAX ->
  INT_MIN <= alloced_bytes d' <= INT_MAX ->
  hd_wf A d'.
Proof.
  intros Hwf Hh Hc He Hn Hmax Hcoll Hbytes.
  pose proof (bucket_lookup A d h Hwf Hh) as Hb.
  destruct Hwf as (Hall & Hcount & _). split; [|split; [|done]].
  - rewrite He. apply Forall2_same_length_lookup. split.
    + rewrite length_insert. by apply Forall2_length in Hall.
    + intros i x c Hx Hi. destruct (decide (i = Z.to_nat h)) as [->|Hne].
      * rewrite list_lookup_insert_eq in Hi by (by eapply lookup_lt_Some).
        apply lookup_seqZ in Hx as [-> _]. injection Hi as <-.
        by rewrite Z.add_0_l, Z2Nat.id by lia.
      * rewrite list_lookup_insert_ne in Hi by done.
        by eapply Forall2_lookup_lr.
  - unfold node_count, nodes in *. rewrite He.
    pose proof (node_count_insert (entries d) _ _ c' Hb). lia.
Qed.

Lemma bucket_replace A d d' h c' h' :
  hd_wf A d -> 0 <= h < HASHSIZE -> 0 <= h' ->
  entries d' = <[Z.to_nat h := c']> (entries d) ->
  bucket d' h' = if decide (h' = h) then c' else bucket d h'.
Proof.
  intros Hwf Hh Hh' He. unfold bucket. rewrite He.
  pose proof (bucket_lookup A d h Hwf Hh) as Hb.
  destruct (decide (h' = h)) as [->|Hne].
  - by rewrite list_lookup_insert_eq by (by eapply lookup_lt_Some).
  - rewrite list_lookup_insert_ne; [done|]. lia.
Qed.

Lemma table_keys_replace A d d' h c' :
  hd_wf A d -> 0 <= h < HASHSIZE ->
  entries d' = <[Z.to_nat h := c']> (entries d) ->
  exists K1 K2 : gset string,
    table_keys d = K1 ∪ list_to_set (chain_keys (bucket d h)) ∪ K2 /\
    table_keys d' = K1 ∪ list_to_set (chain_keys c') ∪ K2.
Proof.
  intros Hwf Hh He. pose proof (bucket_lookup A d h Hwf Hh) as Hb.
  destruct (keys_insert (entries d) _ _ Hb) as (K1 & K2 & HK).
  exists K1, K2. unfold table_keys, nodes. split.
  - rewrite <- HK. by rewrite list_insert_id.
  - by rewrite He, HK.
Qed.

(** ** The table after a successful insert *)

Lemma chain_keys_app (c1 c2 : chain) : chain_keys (c1 ++ c2) = chain_keys c1 ++ chain_keys c2.
Proof. apply omap_app. Qed.

Lemma chain_keys_cons (c : chain) k v : chain_keys (Entry k v :: c) = k :: chain_keys c.
Proof. done. Qed.

Lemma chain_keys_snoc (c : chain) k v : chain_keys (c ++ [Entry k v]) = chain_keys c ++ [k].
Proof. by rewrite chain_keys_app. Qed.

Lemma wf_inserted A d key v :
  hd_wf A d -> ~ stored d (c_str key) -> num_entries d < UINT_MAX ->
  hd_wf A (inserted A d key v).
Proof.
  intros Hwf Hst Hmax. pose proof (hd_hash_range A key) as Hh.
  pose proof (wf_bucket A d _ Hwf Hh) as [Hall Hnd].
  assert (Hn : 0 <= num_entries d) by (destruct Hwf as (_ & -> & _); lia).
  apply (wf_replace A d _ (hd_hash A key)
           (bucket d (hd_hash A key) ++ [Entry (c_str key) (c_str v)])); try done.
  - split.
    + apply Forall_app. split; [done|]. apply Forall_singleton. simpl.
      by rewrite !c_str_idemp, hd_hash_c_str.
    + rewrite chain_keys_snoc. apply NoDup_app. split; [done|]. split.
      * intros x Hx ->%list_elem_of_singleton. by apply (stored_bucket A d key Hwf) in Hx.
      * apply NoDup_singleton.
  - simpl. rewrite length_app. simpl. rewrite to_uint_small by lia. lia.
  - simpl. rewrite to_uint_small by lia. lia.
  - simpl. unfold count_collision. destruct (bucket d (hd_hash A key)); simpl;
      [by destruct Hwf as (_ & _ & _ & ? & _)|apply to_uint_range].
  - apply to_int_range.
Qed.

Lemma table_keys_inserted A d key v :
  hd_wf A d -> table_keys (inserted A d key v) = {[ c_str key ]} ∪ table_keys d.
Proof.
  intros Hwf.
  destruct (table_keys_replace A d (inserted A d key v) (hd_hash A key)
              (bucket d (hd_hash A key) ++ [Entry (c_str key) (c_str v)]) Hwf
              (hd_hash_range A key) eq_refl) as (K1 & K2 & -> & ->).
  rewrite chain_keys_snoc, list_to_set_app_L. simpl.
  apply set_eq. intros x. rewrite !elem_of_union, elem_of_singleton, elem_of_empty. tauto.
Qed.

Lemma wf_count_collision A d h : hd_wf A d -> hd_wf A (count_collision d h).
Proof.
  unfold count_collision. destruct (bucket d h); [done|].
  intros (Hall & Hn & Hmax & _ & Hbytes).
  split; [done|]. split; [done|]. split; [done|]. split; [apply to_uint_range|done].
Qed.

Lemma table_keys_count_collision d h : table_keys (count_collision d h) = table_keys d.
Proof. unfold count_collision. by destruct (bucket d h). Qed.

(** ** Lists with one element taken out or replaced *)

Lemma unlink_delete (c : chain) pos : unlink c pos = delete pos c.
Proof.
  destruct pos as [|p]; [by destruct c|]. simpl. by rewrite delete_take_drop.
Qed.

Lemma delete_middle {X} (pre post : list X) e :
  delete (length pre) (pre ++ e :: post) = pre ++ post.
Proof. induction pre as [|x pre IH]; [done|]. simpl. by rewrite IH. Qed.

Lemma insert_middle {X} (pre post : list X) e e' :
  <[length pre := e']> (pre ++ e :: post) = pre ++ e' :: post.
Proof. induction pre as [|x pre IH]; [done|]. simpl. by rewrite IH. Qed.

Lemma lookup_middle {X} (pre post : list X) : (pre ++ post) !! length pre = head post.
Proof. induction pre as [|x pre IH]; [by destruct post|done]. Qed.

Lemma chain_wf_middle A i (pre post : chain) k v :
  chain_wf A i (pre ++ Entry k v :: post) ->
  chain_wf A i (pre ++ post) /\ (k ∉ chain_keys (pre ++ post)) /\
  (forall v', c_str v' = v' -> chain_wf A i (pre ++ Entry k v' :: post)).
Proof.
  unfold chain_wf, chain_keys. rewrite !omap_app. simpl.
  intros [Hall Hnd]. apply Forall_app in Hall as [Hpre Hpost].
  apply Forall_cons in Hpost as [(Hk & Hv & Hh) Hpost].
  apply NoDup_app in Hnd as (Hnpre & Hdisj & Hnpost).
  apply NoDup_cons in Hnpost as [Hkpost Hnpost].
  split; [|split].
  - split; [apply Forall_app; by split|]. apply NoDup_app. split; [done|].
    split; [|done]. intros x Hx Hx'. apply (Hdisj x Hx). by right.
  - rewrite elem_of_app. intros [Hin|Hin]; [|done]. apply (Hdisj k Hin). by left.
  - intros v' Hv'. split.
    + apply Forall_app. split; [done|]. by apply Forall_cons.
    + rewrite omap_app. simpl. apply NoDup_app. split; [done|]. split; [done|].
      by apply NoDup_cons.
Qed.

(** ** hd_entry_remove on a valid table *)

Lemma bucket_set_num_entries d n h : bucket (set_num_entries d n) h = bucket d h.
Proof. done. Qed.

Lemma bucket_set_alloced_bytes d n h : bucket (set_alloced_bytes d n) h = bucket d h.
Proof. done. Qed.

Lemma bucket_set_bucket A d h c :
  hd_wf A d -> 0 <= h < HASHSIZE -> bucket (set_bucket d h c) h = c.
Proof.
  intros Hwf Hh. unfold bucket, set_bucket. cbn [entries].
  pose proof (bucket_lookup A d h Hwf Hh) as Hb.
  by rewrite list_lookup_insert_eq by (by eapply lookup_lt_Some).
Qed.

(** A key that is not stored is not found; a key that is stored is found,
    and then everything hangs on the node behind the match. *)
Lemma hd_entry_remove_eq A d key :
  hd_wf A d ->
  (exists pre v post,
      bucket d (hd_hash A key) = pre ++ Entry (c_str key) v :: post /\
      (c_str key ∉ chain_keys pre) /\ (c_str key ∉ chain_keys post) /\
      hd_entry_remove A (Some d) (Some key)
      = match post with
        | Entry k' v' :: _ =>
            Ret (0, Some (successor_released A d (hd_hash A key) (length pre) k' v'))
        | _ => Undefined
        end)
  \/ (~ stored d (c_str key) /\ hd_entry_remove A (Some d) (Some key) = Ret (- EINVAL, Some d)).
Proof.
  intros Hwf. pose proof (hd_hash_range A key) as Hh.
  destruct (stored_dec d (c_str key)) as [Hst|Hst].
  - left. destruct (hd_lookup_entry_found A d key Hwf Hst)
      as (pre & v & post & Hb & Hpre & Hpost & Hl).
    exists pre, v, post. split; [done|]. split; [done|]. split; [done|].
    unfold hd_entry_remove. unfold hd_lookup_entry in Hl.
    destruct (num_entries d =? 0); [done|].
    destruct (bucket d (hd_hash A key)) as [|cur rest] eqn:Hc; [done|].
    rewrite Hl. cbn [mbind outcome_bind ptr_pos].
    rewrite bucket_set_num_entries, (bucket_set_bucket A d _ _ Hwf Hh).
    rewrite Hb, unlink_delete, delete_middle, lookup_middle.
    destruct post as [|[k' v'|] post']; [done| |done]. cbn [head].
    rewrite bucket_set_alloced_bytes, bucket_set_num_entries.
    rewrite (bucket_set_bucket A d _ _ Hwf Hh), take_app_length.
    do 3 f_equal. unfold successor_released, set_bucket, set_alloced_bytes, set_num_entries.
    cbn [entries num_entries collisions alloced_bytes].
    by rewrite list_insert_insert_eq, Hc, Hb, take_app_length.
  - right. split; [done|].
    pose proof (hd_lookup_entry_missing A d key Hwf Hst) as Hl.
    unfold hd_entry_remove. unfold hd_lookup_entry in Hl.
    destruct (num_entries d =? 0); [done|].
    destruct (bucket d (hd_hash A key)) as [|cur rest]; [done|].
    by rewrite Hl.
Qed.

Lemma bucket_found_stored A d key pre v post :
  hd_wf A d -> bucket d (hd_hash A key) = pre ++ Entry (c_str key) v :: post ->
  stored d (c_str key).
Proof.
  intros Hwf Hb. rewrite (stored_bucket A d key Hwf), Hb, chain_keys_app, chain_keys_cons.
  apply elem_of_app. right. apply elem_of_cons. by left.
Qed.

(** ** hd_entry_update on a valid table *)

Lemma hd_entry_update_eq A m_val d key value :
  hd_wf A d ->
  (exists pre v post,
      bucket d (hd_hash A key) = pre ++ Entry (c_str key) v :: post /\
      (c_str key ∉ chain_keys pre) /\ (c_str key ∉ chain_keys post) /\
      hd_entry_update A m_val (Some d) (Some key) value
      = match value with
        | Some nv =>
            if m_val && fits nv
            then Ret (0, Some (updated d (hd_hash A key) (length pre) (c_str key) v nv))
            else Undefined
        | None => Undefined
        end)
  \/ (~ stored d (c_str key) /\
      hd_entry_update A m_val (Some d) (Some key) value = Ret (- EINVAL, Some d)).
Proof.
  intros Hwf. unfold hd_entry_update.
  destruct (stored_dec d (c_str key)) as [Hst|Hst].
  - left. destruct (hd_lookup_entry_found A d key Hwf Hst)
      as (pre & v & post & Hb & Hpre & Hpost & ->).
    exists pre, v, post. repeat split; try done. simpl.
    destruct value as [nv|]; [|done]. rewrite hd_stralloc_eq.
    destruct (m_val && fits nv); simpl; [|done].
    by rewrite strlen_c_str.
  - right. by rewrite (hd_lookup_entry_missing A d key Hwf Hst).
Qed.

Lemma wf_updated A d key pre v post nv :
  hd_wf A d ->
  bucket d (hd_hash A key) = pre ++ Entry (c_str key) v :: post ->
  hd_wf A (updated d (hd_hash A key) (length pre) (c_str key) v nv).
Proof.
  intros Hwf Hb. pose proof (hd_hash_range A key) as Hh.
  pose proof (wf_bucket A d _ Hwf Hh) as Hc. rewrite Hb in Hc.
  apply chain_wf_middle in Hc as (_ & _ & Hc).
  apply (wf_replace A d _ (hd_hash A key) (pre ++ Entry (c_str key) (c_str nv) :: post));
    try done.
  - apply Hc, c_str_idemp.
  - simpl. by rewrite Hb, insert_middle.
  - simpl. rewrite Hb, !length_app. simpl. lia.
  - by destruct Hwf as (_ & _ & ? & _).
  - by destruct Hwf as (_ & _ & _ & ? & _).
  - apply to_int_range.
Qed.

Lemma table_keys_updated A d key pre v post nv :
  hd_wf A d ->
  bucket d (hd_hash A key) = pre ++ Entry (c_str key) v :: post ->
  table_keys (updated d (hd_hash A key) (length pre) (c_str key) v nv) = table_keys d.
Proof.
  intros Hwf Hb.
  destruct (table_keys_replace A d (updated d (hd_hash A key) (length pre) (c_str key) v nv)
              (hd_hash A key) (pre ++ Entry (c_str key) (c_str nv) :: post) Hwf
              (hd_hash_range A key)) as (K1 & K2 & -> & ->).
  { simpl. by rewrite Hb, insert_middle. }
  by rewrite Hb, !chain_keys_app, !chain_keys_cons.
Qed.

(** ** Insert *)

Lemma hd_entry_insert_success_inv A m_node m_key m_val d key value d' :
  hd_wf A d ->
  hd_entry_insert A m_node m_key m_val (Some d) (Some key) value = Ret (0, d') ->
  ~ stored d (c_str key) /\
  exists v, value = Some v /\ d' = Some (inserted A d key v) /\
            m_node = true /\ m_key = true /\ m_val = true /\
            fits key = true /\ fits v = true.
Proof.
  intros Hwf. rewrite (hd_entry_insert_eq A) by done.
  destruct (decide (c_str key ∈ table_keys d)) as [Hst|Hst]; [done|].
  rewrite table_keys_elem in Hst.
  destruct m_node; simpl; [|done]. destruct value as [v|]; [|done].
  destruct m_key, m_val, (fits key), (fits v) eqn:Hv; simpl; try done.
  intros [= <-]. split; [done|]. by exists v.
Qed.

Lemma hd_entry_insert_succeeds A d key v :
  hd_wf A d -> ~ stored d (c_str key) -> fits key = true -> fits v = true ->
  hd_entry_insert A true true true (Some d) (Some key) (Some v)
  = Ret (0, Some (inserted A d key v)).
Proof.
  intros Hwf Hst Hk Hv. rewrite (hd_entry_insert_eq A) by done.
  rewrite <- table_keys_elem in Hst. rewrite decide_False by done.
  simpl. by rewrite Hk, Hv.
Qed.

(** C1.  On a valid table, for a key that is not stored and a non-null
    value, the insert succeeds as soon as the three allocations do (and the
    lengths fit [hd_stralloc]'s [unsigned int]).  A successful insert puts
    one new node holding the text of the key and of the value at the end of
    the chain of bucket [hd_hash key] (the bucket head when the bucket was
    empty), leaves every other bucket and every node already in the chain
    as they were, makes [num_entries] one more and [alloced_bytes]
    [strlen(key) + 1 + strlen(value) + 1 + sizeof(struct hd_entry)] more;
    both counters are C integers and wrap at the end of their range. *)
Theorem hd_entry_insert_appends (A : abi) (m_node m_key m_val : bool)
    (d : hd_hashdict) (key value : string) :
  hd_wf A d -> ~ stored d (c_str key) ->
  let hash := hd_hash A key in
  let node := Entry (c_str key) (c_str value) in
  let bytes := strlen key + 1 + strlen value + 1 + sizeof_hd_entry A in
  (m_node = true -> m_key = true -> m_val = true ->
   fits key = true -> fits value = true ->
   exists d', hd_entry_insert A m_node m_key m_val (Some d) (Some key) (Some value)
              = Ret (0, Some d')) /\
  (forall d',
     hd_entry_insert A m_node m_key m_val (Some d) (Some key) (Some value) = Ret (0, d') ->
     exists d1, d' = Some d1 /\
       bucket d1 hash = bucket d hash ++ [node] /\
       (bucket d hash = [] -> bucket d1 hash = [node]) /\
       (forall h, 0 <= h -> h <> hash -> bucket d1 h = bucket d h) /\
       length (entries d1) = length (entries d) /\
       node_count d1 = S (node_count d) /\
       num_entries d1 = to_uint (num_entries d + 1) /\
       (num_entries d < UINT_MAX -> num_entries d1 = num_entries d + 1) /\
       alloced_bytes d1 = to_int (alloced_bytes d + bytes) /\
       (INT_MIN <= alloced_bytes d + bytes <= INT_MAX ->
        alloced_bytes d1 = alloced_bytes d + bytes)).
Proof.
  intros Hwf Hst hash node bytes. split.
  - intros -> -> -> Hk Hv. eexists. by apply hd_entry_insert_succeeds.
  - intros d' Hins.
    apply (hd_entry_insert_success_inv A) in Hins
      as (_ & v & [= <-] & -> & _); [|done].
    pose proof (hd_hash_range A key) as Hh. fold hash in Hh.
    exists (inserted A d key value). split; [done|].
    assert (Hb : bucket (inserted A d key value) hash = bucket d hash ++ [node]).
    { rewrite (bucket_replace A d _ hash (bucket d hash ++ [node]) hash Hwf Hh);
        [by rewrite decide_True|lia|done]. }
    split; [done|]. split; [by intros Hempty; rewrite Hb, Hempty|].
    split; [|split; [|split; [|split; [|split; [|split]]]]].
    + intros h Hh0 Hne.
      rewrite (bucket_replace A d _ hash (bucket d hash ++ [node]) h Hwf Hh);
        [by rewrite decide_False|lia|done].
    + simpl. by rewrite length_insert.
    + unfold node_count, nodes. simpl.
      pose proof (node_count_insert (entries d) _ _ (bucket d hash ++ [node])
                    (bucket_lookup A d hash Hwf Hh)) as Hc.
      rewrite length_app in Hc. subst hash node. simpl in Hc. lia.
    + done.
    + intros Hmax. simpl. apply to_uint_small.
      destruct Hwf as (_ & Hn & _). unfold UINT_MAX in *. lia.
    + done.
    + intros Hr. simpl. by apply to_int_small.
Qed.

Lemma hd_wf_create A : hd_wf A hd_create.
Proof.
  split; [|done].
  apply Forall2_same_length_lookup. split; [by rewrite length_seqZ|].
  intros i x c Hx Hc. apply lookup_replicate in Hc as [-> _].
  split; [apply Forall_nil_2|apply NoDup_nil_2].
Qed.

Lemma not_stored_create k : ~ stored hd_create k.
Proof.
  intros (v & Hin). apply list_elem_of_join in Hin as (c & Hin & Hc).
  apply elem_of_replicate in Hc as [-> _]. by apply elem_of_nil in Hin.
Qed.

Lemma hd_entry_insert_appends_witness :
  exists d', hd_entry_insert lp64 true true true (Some hd_create) (Some "a"%string)
               (Some "1"%string) = Ret (0, Some d').
Proof.
  apply (hd_entry_insert_appends lp64 true true true hd_create "a" "1"
           (hd_wf_create lp64) (not_stored_create _)); reflexivity.
Defined.

(** C2.  On a valid table, an insert of a key that is already stored, with
    any value (NULL included) and whatever the allocator would do, returns
    -EINVAL and leaves the table as it was: the same entry count, the same
    value under that key. *)
Theorem hd_entry_insert_duplicate (A : abi) (m_node m_key m_val : bool)
    (d : hd_hashdict) (key : string) (value : option string) :
  hd_wf A d -> stored d (c_str key) ->
  hd_entry_insert A m_node m_key m_val (Some d) (Some key) value = Ret (- EINVAL, Some d) /\
  (forall r d',
     hd_entry_insert A m_node m_key m_val (Some d) (Some key) value = Ret (r, d') ->
     r = - EINVAL /\
     exists d1, d' = Some d1 /\
       num_entries d1 = num_entries d /\
       hd_lookup A (Some d1) (Some key) = hd_lookup A (Some d) (Some key) /\
       exists v, hd_lookup A (Some d1) (Some key) = Ret (Some v)).
Proof.
  intros Hwf Hst.
  assert (Heq : hd_entry_insert A m_node m_key m_val (Some d) (Some key) value
                = Ret (- EINVAL, Some d)).
  { rewrite (hd_entry_insert_eq A) by done.
    apply table_keys_elem in Hst. by rewrite decide_True. }
  split; [done|]. intros r d'. rewrite Heq. intros [= <- <-].
  split; [done|]. exists d. repeat split.
  destruct (hd_lookup_stored A d key Hwf) as [(v & _ & Hl)|[Hno _]]; [|done].
  by exists v.
Qed.

Lemma hd_wf_inserted_create A key v : hd_wf A (inserted A hd_create key v).
Proof. apply wf_inserted; [apply hd_wf_create|apply not_stored_create|done]. Qed.

Lemma stored_inserted A d key v : hd_wf A d -> stored (inserted A d key v) (c_str key).
Proof.
  intros Hwf. apply table_keys_elem. rewrite table_keys_inserted by done.
  apply elem_of_union. left. by apply elem_of_singleton.
Qed.

Lemma hd_entry_insert_duplicate_witness :
  hd_entry_insert lp64 true true true (Some (inserted lp64 hd_create "a" "1"))
    (Some "a"%string) (Some "2"%string)
  = Ret (- EINVAL, Some (inserted lp64 hd_create "a" "1")).
Proof.
  apply (hd_entry_insert_duplicate lp64 true true true (inserted lp64 hd_create "a" "1")
           "a" (Some "2"%string)
           (hd_wf_inserted_create lp64 "a" "1")
           (stored_inserted lp64 hd_create "a" "1" (hd_wf_create lp64))).
Defined.

(** ** Update *)

(** C9.  On a valid table, a successful update of a stored key changes the
    value field of the node holding that key and nothing else in the chains:
    [num_entries], the collision counter, the number of buckets, every other
    bucket, and within the key's bucket the nodes in front of and behind the
    updated one, its key and the order of the links stay as they were. *)
Theorem hd_entry_update_frame (A : abi) (m_val : bool) (d : hd_hashdict)
    (key value : string) (d' : option hd_hashdict) :
  hd_wf A d -> stored d (c_str key) ->
  hd_entry_update A m_val (Some d) (Some key) (Some value) = Ret (0, d') ->
  exists d1, d' = Some d1 /\
    num_entries d1 = num_entries d /\
    collisions d1 = collisions d /\
    length (entries d1) = length (entries d) /\
    (forall h, 0 <= h -> h <> hd_hash A key -> bucket d1 h = bucket d h) /\
    (forall h, 0 <= h -> chain_keys (bucket d1 h) = chain_keys (bucket d h)) /\
    exists pre v post,
      bucket d (hd_hash A key) = pre ++ Entry (c_str key) v :: post /\
      bucket d1 (hd_hash A key) = pre ++ Entry (c_str key) (c_str value) :: post /\
      (c_str key ∉ chain_keys pre) /\ (c_str key ∉ chain_keys post).
Proof.
  intros Hwf Hst Hupd. pose proof (hd_hash_range A key) as Hh.
  destruct (hd_entry_update_eq A m_val d key (Some value) Hwf)
    as [(pre & v & post & Hb & Hpre & Hpost & Heq)|[Hno _]]; [|done].
  rewrite Heq in Hupd. destruct (m_val && fits value); [|done].
  injection Hupd as <-.
  set (d1 := updated d (hd_hash A key) (length pre) (c_str key) v value).
  assert (He : entries d1 = <[Z.to_nat (hd_hash A key) :=
                               pre ++ Entry (c_str key) (c_str value) :: post]> (entries d)).
  { simpl. by rewrite Hb, insert_middle. }
  assert (Hbk : forall h, 0 <= h ->
            bucket d1 h = if decide (h = hd_hash A key)
                          then pre ++ Entry (c_str key) (c_str value) :: post
                          else bucket d h).
  { intros h Hh0. by apply (bucket_replace A d d1 (hd_hash A key)). }
  exists d1. split; [done|]. split; [done|]. split; [done|].
  split; [by rewrite He, length_insert|]. split; [|split].
  - intros h Hh0 Hne. by rewrite Hbk, decide_False.
  - intros h Hh0. rewrite Hbk by done. destruct (decide (h = hd_hash A key)) as [->|]; [|done].
    by rewrite Hb, !chain_keys_app, !chain_keys_cons.
  - exists pre, v, post. rewrite Hbk by lia. by rewrite decide_True.
Qed.

Lemma hd_entry_update_frame_witness :
  exists d1,
    hd_entry_update lp64 true (Some (inserted lp64 hd_create "a" "1"))
      (Some "a"%string) (Some "9"%string) = Ret (0, Some d1) /\
    num_entries d1 = 1.
Proof.
  destruct (hd_entry_update_frame lp64 true (inserted lp64 hd_create "a" "1") "a" "9"
              (Some (updated (inserted lp64 hd_create "a" "1") 518 0 "a" "1" "9"))
              (hd_wf_inserted_create lp64 "a" "1")
              (stored_inserted lp64 hd_create "a" "1" (hd_wf_create lp64))
              eq_refl) as (d1 & Hd1 & Hn & _).
  injection Hd1 as <-. eexists. split; [reflexivity|exact Hn].
Defined.

(** ** Insert, then lookup *)

Lemma hd_lookup_inserted A d key v :
  hd_wf A d -> ~ stored d (c_str key) -> num_entries d < UINT_MAX ->
  hd_lookup A (Some (inserted A d key v)) (Some key) = Ret (Some (c_str v)).
Proof.
  intros Hwf Hst Hmax. pose proof (hd_hash_range A key) as Hh.
  pose proof (wf_inserted A d key v Hwf Hst Hmax) as Hwf'.
  destruct (hd_lookup_stored A _ key Hwf') as [(v' & Hin & ->)|[Hno _]].
  - rewrite (bucket_replace A d _ (hd_hash A key)
               (bucket d (hd_hash A key) ++ [Entry (c_str key) (c_str v)]) _ Hwf Hh)
      in Hin; [|lia|done].
    rewrite decide_True in Hin by done.
    apply elem_of_app in Hin as [Hin|Hin].
    + destruct Hst. apply (stored_bucket A d key Hwf), chain_keys_elem. by exists v'.
    + apply list_elem_of_singleton in Hin. by injection Hin as ->.
  - destruct Hno. by apply stored_inserted.
Qed.

(** C10.  The empty string is a key like any other: on a valid table that
    does not hold it, an insert of it with a non-null value is never
    answered -EINVAL, succeeds when its allocations do, and the lookup of
    the empty key then returns the text of that value (the entry counter
    being short of UINT_MAX, where it would wrap to zero). *)
Theorem empty_key_is_valid (A : abi) (m_node m_key m_val : bool)
    (d : hd_hashdict) (value : string) :
  hd_wf A d -> ~ stored d EmptyString ->
  (forall d', hd_entry_insert A m_node m_key m_val (Some d) (Some EmptyString) (Some value)
              <> Ret (- EINVAL, d')) /\
  (m_node = true -> m_key = true -> m_val = true -> fits value = true ->
   num_entries d < UINT_MAX ->
   exists d1,
     hd_entry_insert A m_node m_key m_val (Some d) (Some EmptyString) (Some value)
     = Ret (0, Some d1) /\
     hd_lookup A (Some d1) (Some EmptyString) = Ret (Some (c_str value))).
Proof.
  intros Hwf Hst. split.
  - intros d'. rewrite (hd_entry_insert_eq A) by done.
    rewrite <- table_keys_elem in Hst. rewrite decide_False by done.
    destruct m_node; simpl; [|done].
    by destruct (m_key && fits "" && (m_val && fits value)).
  - intros -> -> -> Hv Hmax. exists (inserted A d "" value). split.
    + by apply hd_entry_insert_succeeds.
    + by apply hd_lookup_inserted.
Qed.

Lemma empty_key_is_valid_witness :
  exists d1,
    hd_entry_insert lp64 true true true (Some hd_create) (Some EmptyString) (Some "v"%string)
    = Ret (0, Some d1) /\
    hd_lookup lp64 (Some d1) (Some EmptyString) = Ret (Some "v"%string).
Proof.
  apply (empty_key_is_valid lp64 true true true hd_create "v"
           (hd_wf_create lp64) (not_stored_create _)); reflexivity.
Defined.

(** ** Counting the nodes of a valid table *)

Lemma chain_keys_length A i (c : chain) :
  Forall (entry_wf A i) c -> length (chain_keys c) = length c.
Proof.
  induction 1 as [|e c He _ IH]; [done|].
  apply entry_wf_inv in He as (k & v & -> & _). rewrite chain_keys_cons. simpl. by rewrite IH.
Qed.

(** Distinct buckets hold distinct keys, so the keys of the whole table are
    pairwise distinct. *)
Lemma wf_all_keys A (es : list chain) m n :
  Forall2 (chain_wf A) (seqZ m n) es ->
  NoDup (chain_keys (mjoin es)) /\
  (forall k, k ∈ chain_keys (mjoin es) -> m <= hd_hash A k < m + n) /\
  length (chain_keys (mjoin es)) = length (mjoin es).
Proof.
  revert m n. induction es as [|c es IH]; intros m n Hall.
  { split; [apply NoDup_nil_2|]. split; [|done]. intros k Hk. by apply elem_of_nil in Hk. }
  destruct (Z.le_gt_cases n 0) as [Hn|Hn].
  { rewrite seqZ_nil in Hall by done. by apply Forall2_nil_cons_inv in Hall. }
  rewrite seqZ_cons in Hall by lia. apply Forall2_cons_1 in Hall as [[Hc Hnd] Hall].
  destruct (IH _ _ Hall) as (IHnd & IHr & IHl).
  assert (Hck : forall k, k ∈ chain_keys c -> hd_hash A k = m).
  { intros k (v & Hin)%chain_keys_elem. rewrite Forall_forall in Hc.
    by destruct (Hc _ Hin) as (_ & _ & ?). }
  change (mjoin (c :: es)) with (c ++ mjoin es). rewrite chain_keys_app.
  split; [|split].
  - apply NoDup_app. split; [done|]. split; [|done].
    intros k Hk Hk'. apply Hck in Hk. apply IHr in Hk'. lia.
  - intros k [Hk|Hk]%elem_of_app; [apply Hck in Hk|apply IHr in Hk]; lia.
  - rewrite !length_app, IHl. f_equal. by apply (chain_keys_length A m).
Qed.

(** On a valid table [num_entries] is the number of reachable nodes and
    the number of distinct keys stored. *)
Lemma wf_size A d :
  hd_wf A d -> size (table_keys d) = node_count d /\ num_entries d = Z.of_nat (node_count d).
Proof.
  intros (Hall & Hn & _). split; [|done].
  destruct (wf_all_keys A _ _ _ Hall) as (Hnd & _ & Hlen).
  unfold table_keys, node_count, nodes. by rewrite size_list_to_set.
Qed.

(** ** One call on a valid table *)

Arguments hd_entry_insert : simpl never.
Arguments hd_entry_remove : simpl never.
Arguments hd_entry_update : simpl never.
Arguments hd_lookup : simpl never.

Lemma wf_bucket_length A d h :
  hd_wf A d -> 0 <= h < HASHSIZE -> Z.of_nat (length (bucket d h)) <= num_entries d.
Proof.
  intros Hwf Hh. pose proof Hwf as (_ & -> & _). unfold node_count, nodes.
  destruct (nodes_insert (entries d) _ _ [] (bucket_lookup A d _ Hwf Hh)) as [-> _].
  rewrite !length_app. lia.
Qed.

(** A call that is not a remove finding its key keeps the table valid. *)
Lemma step_inv A d o d' :
  hd_wf A d -> num_entries d < UINT_MAX ->
  (forall k, o = OpRemove (Some k) -> ~ stored d (c_str k)) ->
  step A d o = Ret d' ->
  hd_wf A d' /\ table_keys d' = live_step (table_keys d) o /\
  num_entries d' <= num_entries d + 1.
Proof.
  intros Hwf Hmax Hmiss.
  assert (Hn : 0 <= num_entries d) by (destruct Hwf as (_ & -> & _); lia).
  destruct o as [m_node m_key m_val [key|] value|[key|]|key|m_val [key|] value]; simpl.
  - rewrite (hd_entry_insert_eq A) by done.
    destruct (decide (c_str key ∈ table_keys d)) as [Hst|Hst].
    { simpl. intros [= <-]. split; [done|]. split; [|lia].
      destruct m_node; [|done]. apply set_eq. intros x.
      rewrite elem_of_union, elem_of_singleton. split; [tauto|]. by intros [->|?]. }
    rewrite table_keys_elem in Hst. destruct m_node; simpl.
    + destruct value as [v|]; [|done].
      destruct (m_key && fits key && (m_val && fits v)); simpl; [|done].
      intros [= <-]. split; [by apply wf_inserted|].
      split; [by apply table_keys_inserted|].
      simpl. rewrite to_uint_small; unfold UINT_MAX in *; lia.
    + intros [= <-]. split; [by apply wf_count_collision|].
      split; [apply table_keys_count_collision|].
      unfold count_collision. destruct (bucket d (hd_hash A key)); simpl; lia.
  - intros [= <-]. split; [done|]. split; [by destruct m_node|lia].
  - destruct (hd_entry_remove_eq A d key Hwf)
      as [(pre & v & post & Hb & _)|[Hst ->]]; simpl.
    { destruct (Hmiss key eq_refl). by eapply bucket_found_stored. }
    intros [= <-]. split; [done|]. split; [|lia].
    apply set_eq. intros x. rewrite elem_of_difference, elem_of_singleton.
    rewrite <- table_keys_elem in Hst. split; [|tauto]. intros Hx. split; [done|].
    by intros ->.
  - intros [= <-]. split; [done|]. split; [done|lia].
  - destruct (hd_lookup A (Some d) key); simpl; [|done].
    intros [= <-]. split; [done|]. split; [done|lia].
  - destruct (hd_entry_update_eq A m_val d key value Hwf)
      as [(pre & v & post & Hb & _ & _ & ->)|[Hst ->]]; simpl.
    + destruct value as [nv|]; [|done]. destruct (m_val && fits nv); simpl; [|done].
      intros [= <-]. split; [by eapply wf_updated|].
      split; [by eapply table_keys_updated|]. simpl. lia.
    + intros [= <-]. split; [done|]. split; [done|lia].
  - intros [= <-]. split; [done|]. split; [done|lia].
Qed.

(** ** Sequences of calls *)

Lemma run_app A ops1 ops2 d :
  run A (ops1 ++ ops2) d = d1 ← run A ops1 d; run A ops2 d1.
Proof.
  revert d. induction ops1 as [|o ops1 IH]; intros d; [done|]. simpl.
  destruct (step A d o) as [d1|]; simpl; [apply IH|done].
Qed.

Lemma removes_miss_cons s o ops :
  removes_miss s (o :: ops) = true ->
  (forall k, o = OpRemove (Some k) -> c_str k ∉ s) /\
  removes_miss (live_step s o) ops = true.
Proof.
  cbn [removes_miss]. intros [Ho Hops]%andb_prop. split; [|done].
  intros k ->. by apply bool_decide_eq_true in Ho.
Qed.

Lemma run_inv A ops d d' :
  hd_wf A d -> num_entries d + Z.of_nat (length ops) <= UINT_MAX ->
  removes_miss (table_keys d) ops = true ->
  run A ops d = Ret d' ->
  hd_wf A d' /\ table_keys d' = fold_left live_step ops (table_keys d).
Proof.
  revert d. induction ops as [|o ops IH]; intros d Hwf Hmax Hmiss; simpl.
  { by intros [= <-]. }
  destruct (step A d o) as [d1|] eqn:Hstep; simpl; [|done].
  intros Hrun. simpl in Hmax. apply removes_miss_cons in Hmiss as [Ho Hmiss].
  destruct (step_inv A d o d1 Hwf ltac:(lia)) as (Hwf1 & Hk & Hn); [|done|].
  { intros k Hk. rewrite <- table_keys_elem. by apply Ho. }
  rewrite <- Hk in *. apply (IH d1); [done|lia|done|done].
Qed.

Lemma table_keys_create : table_keys hd_create = ∅.
Proof.
  apply set_eq. intros k. rewrite table_keys_elem.
  split; [intros H; by apply not_stored_create in H|by intros ?%elem_of_empty].
Qed.

(** A sequence of inserts, lookups and updates that are each within
    defined behaviour, and of removes that find nothing, runs to the end. *)
Lemma step_defined A d o :
  hd_wf A d -> op_defined o = true ->
  (forall k, o = OpRemove (Some k) -> ~ stored d (c_str k)) ->
  exists d', step A d o = Ret d'.
Proof.
  intros Hwf Hdef Hmiss.
  destruct o as [m_node m_key m_val [key|] value|[key|]|key|m_val [key|] value];
    simpl in *; try (by eexists).
  - rewrite (hd_entry_insert_eq A) by done.
    destruct (decide (c_str key ∈ table_keys d)); [by eexists|].
    destruct m_node; simpl in *; [|by eexists].
    destruct value as [v|]; simpl in *.
    + rewrite Hdef. by eexists.
    + by rewrite !andb_false_r in Hdef.
  - destruct (hd_entry_remove_eq A d key Hwf)
      as [(pre & v & post & Hb & _)|[_ ->]]; [|by eexists].
    destruct (Hmiss key eq_refl). by eapply bucket_found_stored.
  - destruct key as [key|].
    + destruct (hd_lookup_stored A d key Hwf) as [(v & _ & ->)|[_ ->]]; by eexists.
    + by eexists.
  - destruct (hd_entry_update_eq A m_val d key value Hwf)
      as [(pre & v & post & _ & _ & _ & ->)|[_ ->]]; [|by eexists].
    destruct value as [nv|]; simpl in *.
    + rewrite Hdef. by eexists.
    + by rewrite andb_false_r in Hdef.
Qed.

Lemma run_defined A ops d :
  hd_wf A d -> num_entries d + Z.of_nat (length ops) <= UINT_MAX ->
  forallb op_defined ops = true ->
  removes_miss (table_keys d) ops = true ->
  exists d', run A ops d = Ret d'.
Proof.
  revert d. induction ops as [|o ops IH]; intros d Hwf Hmax Hdef Hmiss; [by eexists|].
  simpl in Hmax, Hdef. apply andb_prop in Hdef as [Ho Hdef].
  apply removes_miss_cons in Hmiss as [Hm Hmiss].
  assert (Hm' : forall k, o = OpRemove (Some k) -> ~ stored d (c_str k)).
  { intros k Hk. rewrite <- table_keys_elem. by apply Hm. }
  destruct (step_defined A d o Hwf Ho Hm') as [d1 Hstep]. cbn [run]. rewrite Hstep.
  cbn [mbind outcome_bind].
  destruct (step_inv A d o d1 Hwf ltac:(lia) Hm' Hstep) as (Hwf1 & Hk & Hn).
  rewrite <- Hk in Hmiss. apply IH; [done|lia|done|done].
Qed.

(** ** Remove *)

(** C3 (the code departs from the claim).  The relinking overwrites the
    link that [entry_ptr] addresses, and the lines after it still read and
    release through [ *entry_ptr].  On a fresh table on which ("a", "1") was
    inserted, remove "a": the link holds NULL by then and
    [strlen(( *entry_ptr)->key)] reads through it, the call is undefined.
    With ("ams", "2") inserted behind "a" in the same bucket 518, remove "a"
    returns 0, but it is the node of "ams" that was measured and released:
    the bucket is left holding a link to released memory, [num_entries] is
    1, and the byte counter went from 58 to 30, down by the 28 of
    [strlen("ams") + strlen("2") + sizeof(struct hd_entry)] where the
    insert of "a" had added 28 for other bytes.  A lookup of "ams" or of
    "a" walks into the released node. *)
Theorem hd_entry_remove_releases_successor :
  hd_entry_insert lp64 true true true (Some hd_create) (Some "a"%string) (Some "1"%string)
  = Ret (0, Some (inserted lp64 hd_create "a" "1")) /\
  hd_entry_remove lp64 (Some (inserted lp64 hd_create "a" "1")) (Some "a"%string)
  = Undefined /\
  hd_entry_insert lp64 true true true (Some (inserted lp64 hd_create "a" "1"))
    (Some "ams"%string) (Some "2"%string)
  = Ret (0, Some (inserted lp64 (inserted lp64 hd_create "a" "1") "ams" "2")) /\
  bucket (inserted lp64 (inserted lp64 hd_create "a" "1") "ams" "2") 518
  = [Entry "a" "1"; Entry "ams" "2"] /\
  alloced_bytes (inserted lp64 (inserted lp64 hd_create "a" "1") "ams" "2") = 58 /\
  hd_entry_remove lp64 (Some (inserted lp64 (inserted lp64 hd_create "a" "1") "ams" "2"))
    (Some "a"%string)
  = Ret (0, Some (successor_released lp64
                    (inserted lp64 (inserted lp64 hd_create "a" "1") "ams" "2")
                    518 0 "ams" "2")) /\
  bucket (successor_released lp64
            (inserted lp64 (inserted lp64 hd_create "a" "1") "ams" "2") 518 0 "ams" "2") 518
  = [Released] /\
  num_entries (successor_released lp64
                 (inserted lp64 (inserted lp64 hd_create "a" "1") "ams" "2") 518 0 "ams" "2")
  = 1 /\
  alloced_bytes (successor_released lp64
                   (inserted lp64 (inserted lp64 hd_create "a" "1") "ams" "2") 518 0 "ams" "2")
  = 30 /\
  hd_lookup lp64
    (Some (successor_released lp64
             (inserted lp64 (inserted lp64 hd_create "a" "1") "ams" "2") 518 0 "ams" "2"))
    (Some "ams"%string) = Undefined /\
  hd_lookup lp64
    (Some (successor_released lp64
             (inserted lp64 (inserted lp64 hd_create "a" "1") "ams" "2") 518 0 "ams" "2"))
    (Some "a"%string) = Undefined.
Proof. repeat split; vm_compute; reflexivity. Qed.

(** C7 (the code departs from the claim).  Two sequences of inserts and
    removes with unique keys on a fresh table.  Insert "a", insert "b",
    remove "a": the keys sit alone in their buckets and the remove reads
    through the NULL it has just stored, so the sequence has no state after
    it.  Insert "a", insert "ams" (same bucket), remove "a": the sequence
    returns with [num_entries] 1 and one key, "ams", inserted and not
    removed, but no live node is reachable: the only link left in the table
    points at the released node of "ams", and the teardown walks into it. *)
Theorem num_entries_after_remove :
  run lp64 [OpInsert true true true (Some "a"%string) (Some "1"%string);
            OpInsert true true true (Some "b"%string) (Some "2"%string);
            OpRemove (Some "a"%string)] hd_create = Undefined /\
  run lp64 [OpInsert true true true (Some "a"%string) (Some "1"%string);
            OpInsert true true true (Some "ams"%string) (Some "2"%string);
            OpRemove (Some "a"%string)] hd_create
  = Ret (successor_released lp64
           (inserted lp64 (inserted lp64 hd_create "a" "1") "ams" "2") 518 0 "ams" "2") /\
  num_entries (successor_released lp64
                 (inserted lp64 (inserted lp64 hd_create "a" "1") "ams" "2") 518 0 "ams" "2")
  = 1 /\
  size (live [OpInsert true true true (Some "a"%string) (Some "1"%string);
              OpInsert true true true (Some "ams"%string) (Some "2"%string);
              OpRemove (Some "a"%string)]) = 1%nat /\
  nodes (successor_released lp64
           (inserted lp64 (inserted lp64 hd_create "a" "1") "ams" "2") 518 0 "ams" "2")
  = [Released] /\
  hd_free lp64
    (Some (successor_released lp64
             (inserted lp64 (inserted lp64 hd_create "a" "1") "ams" "2") 518 0 "ams" "2"))
  = Undefined.
Proof. repeat split; vm_compute; reflexivity. Qed.

(** ** Allocation failures *)

(** An update never answers -ENOMEM. *)
Lemma hd_entry_update_never_enomem A m_val dict key value d' :
  hd_entry_update A m_val dict key value <> Ret (- ENOMEM, d').
Proof.
  unfold hd_entry_update.
  destruct (hd_lookup_entry A dict key) as [[e|]|]; simpl; [|by destruct dict|done].
  destruct dict as [d|]; [|done].
  pose proof (hd_stralloc_never_null m_val value) as Hnn.
  destruct (hd_stralloc m_val value) as [[nv|]|]; simpl; done.
Qed.

(** An update of a stored key whose allocation fails is undefined. *)
Lemma hd_entry_update_alloc_fails A d key value :
  hd_wf A d -> stored d (c_str key) ->
  hd_entry_update A false (Some d) (Some key) value = Undefined.
Proof.
  intros Hwf Hst.
  destruct (hd_entry_update_eq A false d key value Hwf)
    as [(pre & v & post & _ & _ & _ & ->)|[Hno _]]; [|done].
  by destruct value.
Qed.

(** C4 (the code departs from the claim).  With "a" stored under "1", an
    update to "2" whose allocation fails does not return -ENOMEM:
    [hd_stralloc] copies into the NULL it got from [malloc] and the call is
    undefined.  When the allocation succeeds the update returns 0 and the
    lookup gives the new value; an update of a key that is not stored
    returns -EINVAL and leaves the table as it was. *)
Theorem hd_entry_update_alloc_failure_undefined :
  hd_entry_update lp64 false (Some (inserted lp64 hd_create "a" "1"))
    (Some "a"%string) (Some "2"%string) = Undefined /\
  hd_entry_update lp64 true (Some (inserted lp64 hd_create "a" "1"))
    (Some "a"%string) (Some "2"%string)
  = Ret (0, Some (updated (inserted lp64 hd_create "a" "1") 518 0 "a" "1" "2")) /\
  hd_lookup lp64 (Some (updated (inserted lp64 hd_create "a" "1") 518 0 "a" "1" "2"))
    (Some "a"%string) = Ret (Some "2"%string) /\
  hd_entry_update lp64 true (Some (inserted lp64 hd_create "a" "1"))
    (Some "b"%string) (Some "2"%string)
  = Ret (- EINVAL, Some (inserted lp64 hd_create "a" "1")).
Proof. repeat split; vm_compute; reflexivity. Qed.

(** An insert answers -ENOMEM only when the node allocation fails; the
    table then differs from the one before in the collision count at most. *)
Lemma hd_entry_insert_enomem A m_node m_key m_val d key value d' :
  hd_wf A d ->
  hd_entry_insert A m_node m_key m_val (Some d) (Some key) value = Ret (- ENOMEM, d') ->
  m_node = false /\ d' = Some (count_collision d (hd_hash A key)).
Proof.
  intros Hwf. rewrite (hd_entry_insert_eq A) by done.
  destruct (decide (c_str key ∈ table_keys d)); [done|].
  destruct m_node; simpl; [|by intros [= <-]].
  destruct value as [v|]; [|done].
  by destruct (m_key && fits key && (m_val && fits v)).
Qed.

(** Once the node is allocated, a failed key copy or value copy is undefined
    behaviour, on every valid table and for every key not yet stored. *)
Lemma hd_entry_insert_copy_fails A m_key m_val d key value :
  hd_wf A d -> ~ stored d (c_str key) -> m_key && m_val = false ->
  hd_entry_insert A true m_key m_val (Some d) (Some key) value = Undefined.
Proof.
  intros Hwf Hst Hm. rewrite (hd_entry_insert_eq A) by done.
  rewrite <- table_keys_elem in Hst. rewrite decide_False by done. simpl.
  destruct value as [v|]; [|done].
  destruct m_key, m_val; simpl in *; try done; by rewrite ?andb_false_r.
Qed.

(** C5 (the code departs from the claim).  On a fresh table: when the node
    allocation fails, insert returns -ENOMEM and the table is untouched;
    when the key copy or the value copy fails, insert does not return at
    all, [hd_stralloc] copies into NULL.  And the labels meant for these
    failures release the node without unlinking it: the bucket keeps a link
    to released memory, which the teardown then walks into. *)
Theorem hd_entry_insert_alloc_failure :
  hd_entry_insert lp64 false true true (Some hd_create) (Some "a"%string) (Some "1"%string)
  = Ret (- ENOMEM, Some hd_create) /\
  hd_entry_insert lp64 true false true (Some hd_create) (Some "a"%string) (Some "1"%string)
  = Undefined /\
  hd_entry_insert lp64 true true false (Some hd_create) (Some "a"%string) (Some "1"%string)
  = Undefined /\
  err_keyalloc hd_create 518 = (- ENOMEM, Some (set_bucket hd_create 518 [Released])) /\
  err_valalloc hd_create 518 = (- ENOMEM, Some (set_bucket hd_create 518 [Released])) /\
  hd_free lp64 (Some (set_bucket hd_create 518 [Released])) = Undefined.
Proof. repeat split; vm_compute; reflexivity. Qed.

(** ** Teardown *)

(** C6 (the code departs from the claim).  Create, insert ("a", "1"), tear
    down: every bucket is empty again and [num_entries] is 0, but
    [hd_free_entry_list] takes [sizeof(entry->key) + sizeof(entry->value) +
    sizeof(struct hd_entry)], the size of two pointers and a node, off the
    byte counter, whatever the strings were: 40 where 28 were added, so
    [alloced_bytes] ends at -12 (at -4 with 4-byte pointers). *)
Theorem hd_free_byte_counter_not_zero :
  hd_free lp64 (Some (inserted lp64 hd_create "a" "1"))
  = Ret (Some (set_alloced_bytes hd_create (-12))) /\
  num_entries (set_alloced_bytes hd_create (-12)) = 0 /\
  entries (set_alloced_bytes hd_create (-12)) = entries hd_create /\
  alloced_bytes (set_alloced_bytes hd_create (-12)) = -12 /\
  hd_free ilp32 (Some (inserted ilp32 hd_create "a" "1"))
  = Ret (Some (set_alloced_bytes hd_create (-4))).
Proof. repeat split; vm_compute; reflexivity. Qed.

(** What the teardown does on any valid table: all buckets empty, no
    entries, and five pointer sizes per node off the byte counter. *)
Lemma hd_free_entry_list_eq A i cur rest d :
  Forall (entry_wf A i) (cur :: rest) ->
  hd_free_entry_list A cur rest d = Ret (released A d (S (length rest))).
Proof.
  revert cur. induction rest as [|nxt rest IH]; intros cur Hall;
    apply Forall_cons in Hall as [Hcur Hrest];
    apply entry_wf_inv in Hcur as (k & v & -> & _).
  - simpl. unfold released, set_num_entries, set_alloced_bytes. simpl.
    do 2 f_equal. f_equal. lia.
  - cbn [hd_free_entry_list]. rewrite (IH nxt Hrest). simpl.
    unfold released, set_num_entries, set_alloced_bytes. simpl.
    rewrite to_uint_sub, to_int_sub. do 2 f_equal; f_equal; lia.
Qed.


Lemma hd_free_loop_eq A (todo done : list chain) d :
  Forall2 (chain_wf A) (seqZ (Z.of_nat (length done)) (Z.of_nat (length todo))) todo ->
  entries d = done ++ todo ->
  0 <= num_entries d <= UINT_MAX -> INT_MIN <= alloced_bytes d <= INT_MAX ->
  exists d',
    hd_free_loop A (seqZ (Z.of_nat (length done)) (Z.of_nat (length todo))) d = Ret d' /\
    entries d' = done ++ replicate (length todo) [] /\
    num_entries d' = to_uint (num_entries d - Z.of_nat (length (mjoin todo))) /\
    collisions d' = collisions d /\
    alloced_bytes d'
    = to_int (alloced_bytes d -
              Z.of_nat (length (mjoin todo)) * (sizeof_ptr A + sizeof_ptr A + sizeof_hd_entry A)).
Proof.
  revert done d. induction todo as [|c todo IH]; intros done d Hall He Hnum Hbytes.
  { exists d. simpl. change (Z.of_nat 0) with 0.
    rewrite Z.mul_0_l, !Z.sub_0_r, to_uint_small, to_int_small by done.
    by rewrite He. }
  rewrite seqZ_cons in * by (simpl; lia).
  apply Forall2_cons_1 in Hall as [[Hc _] Hall].
  replace (Z.succ (Z.of_nat (length done))) with (Z.of_nat (length (done ++ [[]]))) in *
    by (rewrite length_app; simpl; lia).
  replace (Z.pred (Z.of_nat (length (c :: todo)))) with (Z.of_nat (length todo)) in *
    by (simpl; lia).
  assert (Hb : bucket d (Z.of_nat (length done)) = c).
  { unfold bucket. by rewrite Nat2Z.id, He, list_lookup_middle. }
  assert (Hd1 : exists d1,
             match bucket d (Z.of_nat (length done)) with
             | cur :: rest =>
                 hd_free_entry_list A cur rest d
                 ≫= λ d', Ret (set_bucket d' (Z.of_nat (length done)) [])
             | [] => Ret d
             end = Ret d1 /\
             entries d1 = (done ++ [[]]) ++ todo /\
             num_entries d1 = to_uint (num_entries d - Z.of_nat (length c)) /\
             collisions d1 = collisions d /\
             alloced_bytes d1
             = to_int (alloced_bytes d -
                       Z.of_nat (length c) * (sizeof_ptr A + sizeof_ptr A + sizeof_hd_entry A))).
  { rewrite Hb. destruct c as [|cur rest].
    - exists d. simpl. change (Z.of_nat 0) with 0.
      rewrite Z.mul_0_l, !Z.sub_0_r, to_uint_small, to_int_small by done.
      by rewrite He, <- app_assoc.
    - rewrite (hd_free_entry_list_eq A _ cur rest d Hc). eexists. split; [done|].
      simpl. by rewrite Nat2Z.id, He, insert_middle, <- app_assoc. }
  destruct Hd1 as (d1 & Hstep & He1 & Hn1 & Hc1 & Hb1).
  destruct (IH (done ++ [[]]) d1 Hall He1) as (d' & Hloop & He' & Hn' & Hc' & Hb').
  { rewrite Hn1. apply to_uint_range. }
  { rewrite Hb1. apply to_int_range. }
  exists d'. cbn [hd_free_loop]. rewrite Hstep. simpl. split; [done|].
  change (mjoin (c :: todo)) with (c ++ mjoin todo). rewrite length_app.
  split; [by rewrite He', <- app_assoc|]. split; [|split; [congruence|]].
  - rewrite Hn', Hn1, to_uint_sub. f_equal. lia.
  - rewrite Hb', Hb1, to_int_sub. f_equal. lia.
Qed.

Lemma hd_free_wf A d : hd_wf A d -> hd_free A (Some d) = Ret (Some (torn_down A d)).
Proof.
  intros Hwf. pose proof (wf_length A d Hwf) as Hlen.
  destruct Hwf as (Hall & Hn & Hmax & _ & Hbytes).
  destruct (hd_free_loop_eq A (entries d) [] d) as (d' & Hloop & He & Hn' & Hc & Hb).
  - change (Z.of_nat (length [])) with 0. by rewrite Hlen, Z2Nat.id.
  - done.
  - lia.
  - done.
  - change (Z.of_nat (length [])) with 0 in Hloop.
    rewrite Hlen, Z2Nat.id in Hloop by done.
    unfold hd_free. rewrite Hloop. cbn [mbind outcome_bind].
    do 2 f_equal. destruct d' as [es n c b]. cbn [entries num_entries collisions alloced_bytes] in *.
    subst es n c b. unfold torn_down. fold (nodes d). fold (node_count d).
    rewrite Hlen, Hn, Z.sub_diag. done.
Qed.

(** After any sequence of calls on a fresh table in which no remove finds
    its key the teardown leaves no node and no entry; the byte counter ends
    where [torn_down] puts it. *)
Lemma hd_free_after_run A ops d :
  Z.of_nat (length ops) <= UINT_MAX -> removes_miss ∅ ops = true ->
  run A ops hd_create = Ret d ->
  hd_free A (Some d) = Ret (Some (torn_down A d)) /\
  num_entries (torn_down A d) = 0 /\
  nodes (torn_down A d) = [].
Proof.
  intros Hlen Hmiss Hrun.
  destruct (run_inv A ops hd_create d (hd_wf_create A)) as [Hwf _];
    [simpl; lia|by rewrite table_keys_create|done|].
  split; [by apply hd_free_wf|]. split; [done|].
  unfold nodes, torn_down. cbn [entries]. apply join_nil, Forall_forall.
  by intros c [-> _]%elem_of_replicate.
Qed.

(** * Further properties *)

(** ** The table as a finite map *)

Lemma entry_pair_keys (c : chain) : (omap entry_pair c).*1 = chain_keys c.
Proof.
  induction c as [|[k v|] c IH]; [done| |done].
  change ((k, v).1 :: (omap entry_pair c).*1 = k :: chain_keys c). by rewrite IH.
Qed.

Lemma entry_pair_elem (c : chain) k v : (k, v) ∈ omap entry_pair c <-> Entry k v ∈ c.
Proof.
  rewrite list_elem_of_omap. split.
  - intros ([k' v'|] & Hin & Hp); [|done]. by injection Hp as -> ->.
  - intros Hin. by exists (Entry k v).
Qed.

(** On a valid table the view holds exactly the reachable nodes. *)
Lemma table_map_lookup A d k v :
  hd_wf A d -> table_map d !! k = Some v <-> Entry k v ∈ nodes d.
Proof.
  intros (Hall & _). unfold table_map.
  rewrite <- elem_of_list_to_map; [apply entry_pair_elem|].
  rewrite entry_pair_keys. by destruct (wf_all_keys A _ _ _ Hall) as [? _].
Qed.

Lemma table_map_dom A d k : hd_wf A d -> is_Some (table_map d !! k) <-> stored d k.
Proof.
  intros Hwf. unfold stored, is_Some. by setoid_rewrite (table_map_lookup A d k _ Hwf).
Qed.

Lemma table_map_None A d k : hd_wf A d -> table_map d !! k = None <-> ~ stored d k.
Proof. intros Hwf. by rewrite <- (table_map_dom A), eq_None_not_Some. Qed.

Lemma table_map_eq A d1 d2 :
  hd_wf A d1 -> hd_wf A d2 ->
  (forall k v, Entry k v ∈ nodes d1 <-> Entry k v ∈ nodes d2) ->
  table_map d1 = table_map d2.
Proof.
  intros H1 H2 Hn. apply map_eq. intros k. apply option_eq. intros v.
  by rewrite (table_map_lookup A d1), (table_map_lookup A d2), Hn.
Qed.

Lemma nodes_replace A d d' h c' :
  hd_wf A d -> 0 <= h < HASHSIZE ->
  entries d' = <[Z.to_nat h := c']> (entries d) ->
  exists N1 N2 : chain,
    nodes d = N1 ++ bucket d h ++ N2 /\ nodes d' = N1 ++ c' ++ N2.
Proof.
  intros Hwf Hh He. unfold nodes. rewrite He.
  destruct (nodes_insert (entries d) _ _ c' (bucket_lookup A d h Hwf Hh)) as [H1 H2].
  by eexists _, _.
Qed.

Lemma bucket_nodes A d h e : hd_wf A d -> 0 <= h < HASHSIZE -> e ∈ bucket d h -> e ∈ nodes d.
Proof.
  intros Hwf Hh Hin. apply list_elem_of_join. exists (bucket d h). split; [done|].
  eapply list_elem_of_lookup_2, (bucket_lookup A); done.
Qed.

(** The lookup reads the view. *)
Lemma hd_lookup_map A d key :
  hd_wf A d -> hd_lookup A (Some d) (Some key) = Ret (table_map d !! c_str key).
Proof.
  intros Hwf. destruct (hd_lookup_stored A d key Hwf) as [(v & Hin & ->)|[Hno ->]].
  - f_equal. symmetry. apply (table_map_lookup A); [done|].
    by apply (bucket_nodes A _ (hd_hash A key)); [|apply hd_hash_range|].
  - f_equal. symmetry. by apply (table_map_None A).
Qed.

Lemma table_map_create : table_map hd_create = ∅.
Proof.
  apply map_eq. intros k. rewrite lookup_empty.
  apply (table_map_None lp64); [apply hd_wf_create|apply not_stored_create].
Qed.

Lemma table_map_inserted A d key v :
  hd_wf A d -> ~ stored d (c_str key) -> num_entries d < UINT_MAX ->
  table_map (inserted A d key v) = <[c_str key := c_str v]> (table_map d).
Proof.
  intros Hwf Hst Hmax. pose proof (wf_inserted A d key v Hwf Hst Hmax) as Hwf'.
  destruct (nodes_replace A d (inserted A d key v) (hd_hash A key)
              (bucket d (hd_hash A key) ++ [Entry (c_str key) (c_str v)]) Hwf
              (hd_hash_range A key) eq_refl) as (N1 & N2 & HN & HN').
  apply map_eq. intros k. apply option_eq. intros w.
  rewrite lookup_insert_Some, (table_map_lookup A _ k w Hwf'), (table_map_lookup A d k w Hwf).
  rewrite HN, HN', !elem_of_app, list_elem_of_singleton. split.
  - intros [?|[[?|Heq]|?]]; try (right; split; [|tauto]); try (intros <-; apply Hst; exists w;
      rewrite HN, !elem_of_app; tauto).
    injection Heq as -> ->. by left.
  - intros [[<- <-]|[_ ?]]; tauto.
Qed.

Lemma table_map_count_collision d h : table_map (count_collision d h) = table_map d.
Proof. unfold count_collision. by destruct (bucket d h). Qed.

Lemma table_map_updated A d key pre v post nv :
  hd_wf A d ->
  bucket d (hd_hash A key) = pre ++ Entry (c_str key) v :: post ->
  table_map (updated d (hd_hash A key) (length pre) (c_str key) v nv)
  = <[c_str key := c_str nv]> (table_map d).
Proof.
  intros Hwf Hb. pose proof (hd_hash_range A key) as Hh.
  pose proof (wf_updated A d key pre v post nv Hwf Hb) as Hwf'.
  destruct (nodes_replace A d (updated d (hd_hash A key) (length pre) (c_str key) v nv)
              (hd_hash A key) (pre ++ Entry (c_str key) (c_str nv) :: post) Hwf Hh)
    as (N1 & N2 & HN & HN').
  { simpl. by rewrite Hb, insert_middle. }
  assert (Huniq : forall w,
            Entry (c_str key) w ∈ nodes (updated d (hd_hash A key) (length pre) (c_str key) v nv) ->
            w = c_str nv).
  { intros w Hw. apply (table_map_lookup A _ _ _ Hwf') in Hw.
    assert (Hv : table_map (updated d (hd_hash A key) (length pre) (c_str key) v nv)
                 !! c_str key = Some (c_str nv)).
    { apply (table_map_lookup A _ _ _ Hwf'). rewrite HN', !elem_of_app, elem_of_cons. tauto. }
    congruence. }
  apply map_eq. intros k. apply option_eq. intros w.
  rewrite lookup_insert_Some, (table_map_lookup A _ k w Hwf'), (table_map_lookup A d k w Hwf).
  split.
  - intros Hin. destruct (decide (c_str key = k)) as [<-|Hne].
    + left. split; [done|]. symmetry. by apply Huniq.
    + right. split; [done|]. rewrite HN' in Hin. rewrite HN, Hb.
      rewrite !elem_of_app, !elem_of_cons in *.
      destruct Hin as [?|[[?|[Heq|?]]|?]]; try tauto. by injection Heq as -> _.
  - intros [[<- <-]|[Hne Hin]]; rewrite HN', !elem_of_app, !elem_of_cons; [tauto|].
    rewrite HN, Hb, !elem_of_app, !elem_of_cons in Hin.
    destruct Hin as [?|[[?|[Heq|?]]|?]]; try tauto. by injection Heq as -> _.
Qed.

Lemma table_keys_dom A d : hd_wf A d -> dom (table_map d) = table_keys d.
Proof.
  intros Hwf. apply set_eq. intros k.
  by rewrite elem_of_dom, (table_map_dom A), table_keys_elem.
Qed.

Lemma wf_map_size A d : hd_wf A d -> num_entries d = Z.of_nat (size (table_map d)).
Proof.
  intros Hwf. destruct (wf_size A d Hwf) as [Hs ->].
  by rewrite <- Hs, <- (table_keys_dom A), size_dom.
Qed.

(** A call that is not a remove finding its key moves the view as
    [map_step] says. *)
Lemma step_map A d o d' :
  hd_wf A d -> num_entries d < UINT_MAX ->
  (forall k, o = OpRemove (Some k) -> ~ stored d (c_str k)) ->
  step A d o = Ret d' ->
  table_map d' = map_step (table_map d) o.
Proof.
  intros Hwf Hmax Hmiss.
  destruct o as [m_node m_key m_val [key|] value|[key|]|key|m_val [key|] value]; simpl.
  - rewrite (hd_entry_insert_eq A) by done.
    destruct (decide (c_str key ∈ table_keys d)) as [Hst|Hst]; rewrite table_keys_elem in Hst.
    { simpl. intros [= <-]. apply (table_map_dom A d _ Hwf) in Hst as [w Hw].
      destruct m_node; [|done]. destruct value; [|done]. by rewrite Hw. }
    pose proof Hst as Hnone. apply (table_map_None A d _ Hwf) in Hnone.
    destruct m_node; simpl.
    + destruct value as [v|]; [|done].
      destruct (m_key && fits key && (m_val && fits v)); simpl; [|done].
      intros [= <-]. rewrite Hnone. by apply table_map_inserted.
    + intros [= <-]. apply table_map_count_collision.
  - intros [= <-]. by destruct m_node.
  - destruct (hd_entry_remove_eq A d key Hwf)
      as [(pre & v & post & Hb & _)|[Hst ->]]; simpl; [|by intros [= <-]].
    destruct (Hmiss key eq_refl). by eapply bucket_found_stored.
  - by intros [= <-].
  - destruct (hd_lookup A (Some d) key); simpl; [|done]. by intros [= <-].
  - destruct (hd_entry_update_eq A m_val d key value Hwf)
      as [(pre & v & post & Hb & _ & _ & ->)|[Hst ->]]; simpl.
    + destruct value as [nv|]; [|done]. destruct (m_val && fits nv); simpl; [|done].
      intros [= <-].
      assert (Hv : table_map d !! c_str key = Some v).
      { apply (table_map_lookup A d _ _ Hwf).
        apply (bucket_nodes A _ (hd_hash A key)); [done|apply hd_hash_range|].
        rewrite Hb, elem_of_app, elem_of_cons. tauto. }
      rewrite Hv. by eapply table_map_updated.
    + intros [= <-]. apply (table_map_None A d _ Hwf) in Hst.
      destruct value; [|done]. by rewrite Hst.
  - by intros [= <-].
Qed.

Lemma run_map A ops d d' :
  hd_wf A d -> num_entries d + Z.of_nat (length ops) <= UINT_MAX ->
  removes_miss (table_keys d) ops = true ->
  run A ops d = Ret d' ->
  hd_wf A d' /\ table_map d' = fold_left map_step ops (table_map d).
Proof.
  revert d. induction ops as [|o ops IH]; intros d Hwf Hmax Hmiss; simpl.
  { by intros [= <-]. }
  destruct (step A d o) as [d1|] eqn:Hstep; simpl; [|done].
  intros Hrun. simpl in Hmax. apply removes_miss_cons in Hmiss as [Hm Hmiss].
  assert (Hm' : forall k, o = OpRemove (Some k) -> ~ stored d (c_str k)).
  { intros k Hk. rewrite <- table_keys_elem. by apply Hm. }
  destruct (step_inv A d o d1 Hwf ltac:(lia) Hm' Hstep) as (Hwf1 & Hk & Hn).
  rewrite <- (step_map A d o d1 Hwf ltac:(lia) Hm' Hstep).
  rewrite <- Hk in Hmiss. apply (IH d1); [done|lia|done|done].
Qed.

Lemma stored_inserted_create A key v k :
  stored (inserted A hd_create key v) k -> k = c_str key.
Proof.
  rewrite <- table_keys_elem, table_keys_inserted by apply hd_wf_create.
  rewrite table_keys_create, elem_of_union, elem_of_singleton, elem_of_empty. tauto.
Qed.

Lemma hd_lookup_other A d d' key k' :
  hd_wf A d -> hd_wf A d' ->
  (forall k, k <> c_str key -> table_map d' !! k = table_map d !! k) ->
  c_str k' <> c_str key ->
  hd_lookup A (Some d') (Some k') = hd_lookup A (Some d) (Some k').
Proof. intros Hwf Hwf' Hm Hne. rewrite !hd_lookup_map by done. by rewrite Hm. Qed.

(** ** Lookup *)

(** X1.  On a valid table a lookup returns the value of the node whose key
    has the text of the key asked for, and NULL exactly when no reachable
    node has that key; there is at most one such node. *)
Theorem hd_lookup_finds_stored (A : abi) (d : hd_hashdict) (key : string) :
  hd_wf A d ->
  (forall v, hd_lookup A (Some d) (Some key) = Ret (Some v) <->
             Entry (c_str key) v ∈ nodes d) /\
  (hd_lookup A (Some d) (Some key) = Ret None <-> ~ stored d (c_str key)) /\
  (forall v w, Entry (c_str key) v ∈ nodes d -> Entry (c_str key) w ∈ nodes d -> v = w).
Proof.
  intros Hwf. rewrite hd_lookup_map by done. split; [|split].
  - intros v. rewrite <- (table_map_lookup A d _ _ Hwf). split; [by intros [= ->]|by intros ->].
  - rewrite <- (table_map_None A d _ Hwf). split; [by intros [= ->]|by intros ->].
  - intros v w Hv Hw. apply (table_map_lookup A d _ _ Hwf) in Hv, Hw. congruence.
Qed.

Lemma hd_lookup_finds_stored_witness :
  hd_lookup lp64 (Some (inserted lp64 hd_create "a" "1")) (Some "a"%string) = Ret (Some "1"%string)
  <-> Entry "a" "1" ∈ nodes (inserted lp64 hd_create "a" "1").
Proof.
  apply (hd_lookup_finds_stored lp64 (inserted lp64 hd_create "a" "1") "a"
           (hd_wf_inserted_create lp64 "a" "1")).
Defined.

(** ** Insert *)

(** X2.  Insert, then lookup.  After a successful insert on a valid table
    (entry counter short of UINT_MAX), the lookup of the inserted key
    returns the text of the inserted value, and the lookup of every other
    key returns what it returned before. *)
Theorem hd_entry_insert_then_lookup (A : abi) (m_node m_key m_val : bool)
    (d d' : hd_hashdict) (key : string) (value : option string) :
  hd_wf A d -> num_entries d < UINT_MAX ->
  hd_entry_insert A m_node m_key m_val (Some d) (Some key) value = Ret (0, Some d') ->
  exists v, value = Some v /\
    hd_wf A d' /\
    hd_lookup A (Some d') (Some key) = Ret (Some (c_str v)) /\
    forall k', c_str k' <> c_str key ->
      hd_lookup A (Some d') (Some k') = hd_lookup A (Some d) (Some k').
Proof.
  intros Hwf Hmax Hins.
  apply (hd_entry_insert_success_inv A) in Hins as (Hst & v & -> & [= ->] & _); [|done].
  pose proof (wf_inserted A d key v Hwf Hst Hmax) as Hwf'.
  exists v. split; [done|]. split; [done|]. split; [by apply hd_lookup_inserted|].
  intros k' Hne. apply (hd_lookup_other A d _ key); try done.
  intros k Hk. rewrite table_map_inserted by done. by rewrite lookup_insert_ne.
Qed.

Lemma hd_entry_insert_then_lookup_witness :
  hd_lookup lp64 (Some (inserted lp64 hd_create "a" "1")) (Some "a"%string)
  = Ret (Some "1"%string).
Proof.
  destruct (hd_entry_insert_then_lookup lp64 true true true hd_create
              (inserted lp64 hd_create "a" "1") "a" (Some "1"%string)
              (hd_wf_create lp64) ltac:(vm_compute; reflexivity) eq_refl)
    as (v & [= <-] & _ & Hl & _).
  exact Hl.
Defined.

(** X3.  The error returns of insert.  On a valid table an insert that
    returns a non-zero code returns -EINVAL for a key that is stored, or
    -ENOMEM for a key that is not stored when the node allocation fails.
    Either way the chains, the entry count and the byte counter are as
    before; the -ENOMEM return has still counted a collision when the
    key's bucket was occupied. *)
Theorem hd_entry_insert_errors (A : abi) (m_node m_key m_val : bool)
    (d : hd_hashdict) (key : string) (value : option string)
    (r : Z) (d' : option hd_hashdict) :
  hd_wf A d ->
  hd_entry_insert A m_node m_key m_val (Some d) (Some key) value = Ret (r, d') ->
  r <> 0 ->
  exists d1, d' = Some d1 /\
    entries d1 = entries d /\ num_entries d1 = num_entries d /\
    alloced_bytes d1 = alloced_bytes d /\
    ((r = - EINVAL /\ stored d (c_str key) /\ d1 = d) \/
     (r = - ENOMEM /\ m_node = false /\ ~ stored d (c_str key) /\
      collisions d1 = match bucket d (hd_hash A key) with
                      | [] => collisions d
                      | _ :: _ => to_uint (collisions d + 1)
                      end)).
Proof.
  intros Hwf. rewrite (hd_entry_insert_eq A) by done.
  destruct (decide (c_str key ∈ table_keys d)) as [Hst|Hst]; rewrite table_keys_elem in Hst.
  { intros [= <- <-] _. exists d. repeat split. by left. }
  destruct m_node; simpl.
  - destruct value as [v|]; [|done].
    destruct (m_key && fits key && (m_val && fits v)); [|done]. by intros [= <- <-].
  - intros [= <- <-] _. exists (count_collision d (hd_hash A key)).
    unfold count_collision.
    destruct (bucket d (hd_hash A key)) eqn:Hb; (split; [done|]); repeat split; right;
      by rewrite ?Hb.
Qed.

Lemma hd_entry_insert_errors_witness :
  exists d1,
    Some (inserted lp64 hd_create "a" "1") = Some d1 /\
    entries d1 = entries (inserted lp64 hd_create "a" "1").
Proof.
  destruct (hd_entry_insert_errors lp64 false true true (inserted lp64 hd_create "a" "1")
              "a" (Some "2"%string) (- EINVAL) (Some (inserted lp64 hd_create "a" "1"))
              (hd_wf_inserted_create lp64 "a" "1") eq_refl ltac:(done))
    as (d1 & Hd & He & _).
  by exists d1.
Defined.

(** X4.  The collision counter.  A successful insert on a valid table
    leaves [collisions] as it was when the key's bucket was empty and makes
    it one more (modulo 2^32) when the bucket held a node already. *)
Theorem hd_entry_insert_counts_collision (A : abi) (m_node m_key m_val : bool)
    (d d' : hd_hashdict) (key : string) (value : option string) :
  hd_wf A d ->
  hd_entry_insert A m_node m_key m_val (Some d) (Some key) value = Ret (0, Some d') ->
  collisions d' = match bucket d (hd_hash A key) with
                  | [] => collisions d
                  | _ :: _ => to_uint (collisions d + 1)
                  end.
Proof.
  intros Hwf Hins.
  apply (hd_entry_insert_success_inv A) in Hins as (_ & v & _ & [= ->] & _); [|done].
  simpl. unfold count_collision. by destruct (bucket d (hd_hash A key)).
Qed.

Lemma hd_entry_insert_counts_collision_witness :
  collisions (inserted lp64 hd_create "a" "1") = 0.
Proof.
  rewrite (hd_entry_insert_counts_collision lp64 true true true hd_create
             (inserted lp64 hd_create "a" "1") "a" (Some "1"%string)
             (hd_wf_create lp64) eq_refl).
  reflexivity.
Defined.

(** ** Remove *)

Lemma successor_released_spec A d key pre v k' v' post' :
  hd_wf A d ->
  bucket d (hd_hash A key) = pre ++ Entry (c_str key) v :: Entry k' v' :: post' ->
  bucket (successor_released A d (hd_hash A key) (length pre) k' v') (hd_hash A key)
  = pre ++ [Released] /\
  (forall h, 0 <= h -> h <> hd_hash A key ->
     bucket (successor_released A d (hd_hash A key) (length pre) k' v') h = bucket d h) /\
  num_entries (successor_released A d (hd_hash A key) (length pre) k' v') = num_entries d - 1 /\
  2 <= num_entries d.
Proof.
  intros Hwf Hb. pose proof (hd_hash_range A key) as Hh.
  pose proof (wf_bucket_length A d _ Hwf Hh) as Hlen.
  rewrite Hb, length_app in Hlen. cbn [length] in Hlen.
  assert (Hmax : num_entries d <= UINT_MAX) by (by destruct Hwf as (_ & _ & ? & _)).
  split; [|split; [|split; [|lia]]].
  - rewrite (bucket_replace A d _ (hd_hash A key)
               (take (length pre) (bucket d (hd_hash A key)) ++ [Released]) _ Hwf Hh);
      [|lia|done].
    by rewrite decide_True, Hb, take_app_length.
  - intros h Hh0 Hne.
    rewrite (bucket_replace A d _ (hd_hash A key)
               (take (length pre) (bucket d (hd_hash A key)) ++ [Released]) _ Hwf Hh);
      [|done|done].
    by rewrite decide_False.
  - cbn [successor_released num_entries]. rewrite to_uint_small; unfold UINT_MAX in *; lia.
Qed.

(** A walk along live nodes that hold other keys into a released node. *)
Lemma chain_walk_released A i key hash (pre : chain) cur rest pos :
  Forall (entry_wf A i) pre -> c_str key ∉ chain_keys pre ->
  cur :: rest = pre ++ [Released] ->
  chain_walk key hash cur rest pos = Undefined.
Proof.
  revert cur rest pos. induction pre as [|e pre IH]; intros cur rest pos Hall Hk Heq.
  { injection Heq as -> ->. done. }
  apply Forall_cons in Hall as [He Hall].
  apply entry_wf_inv in He as (k & v & -> & Hck & _).
  rewrite chain_keys_cons, not_elem_of_cons in Hk. destruct Hk as [Hne Hk].
  injection Heq as -> ->.
  destruct (pre ++ [Released]) as [|nxt rest'] eqn:Hrest.
  { by destruct pre. }
  cbn [chain_walk].
  destruct (Z.eqb_spec (strcmp key k) 0) as [He|He].
  { apply strcmp_eq in He. by rewrite Hck in He. }
  cbn [negb]. by apply IH.
Qed.

(** The table of two colliding keys that the examples remove from. *)
Lemma hd_wf_two_in_a_chain :
  hd_wf lp64 (inserted lp64 (inserted lp64 hd_create "a" "1") "ams" "2") /\
  stored (inserted lp64 (inserted lp64 hd_create "a" "1") "ams" "2") "a".
Proof.
  pose proof (hd_wf_inserted_create lp64 "a" "1") as Hwf. split.
  - apply wf_inserted; [done| |reflexivity].
    intros H%stored_inserted_create. discriminate H.
  - apply table_keys_elem. rewrite table_keys_inserted by done.
    apply elem_of_union. right. apply table_keys_elem.
    apply (stored_inserted lp64 hd_create "a" "1" (hd_wf_create lp64)).
Qed.

(** X5.  On a valid table the removal of a stored key never does what it
    is called for.  The key sits at one place of its chain.  When no node
    hangs behind it, the call is undefined: it reads through the NULL it has
    just stored in the link.  When a node hangs behind it, the call returns
    0 and it is that successor that was measured and released: the chain is
    left as the nodes in front of the match followed by a link to the
    released successor, every other bucket is untouched, [num_entries] is
    one less, the byte counter is down by
    [strlen(key) + strlen(value) + sizeof(struct hd_entry)] of the
    successor, and the table is no longer valid. *)
Theorem hd_entry_remove_stored (A : abi) (d : hd_hashdict) (key : string) :
  hd_wf A d -> stored d (c_str key) ->
  exists pre v post,
    bucket d (hd_hash A key) = pre ++ Entry (c_str key) v :: post /\
    (post = [] \/ exists k' v' post', post = Entry k' v' :: post') /\
    (post = [] -> hd_entry_remove A (Some d) (Some key) = Undefined) /\
    (forall k' v' post', post = Entry k' v' :: post' ->
       exists d1,
         hd_entry_remove A (Some d) (Some key) = Ret (0, Some d1) /\
         bucket d1 (hd_hash A key) = pre ++ [Released] /\
         (forall h, 0 <= h -> h <> hd_hash A key -> bucket d1 h = bucket d h) /\
         num_entries d1 = num_entries d - 1 /\
         collisions d1 = collisions d /\
         alloced_bytes d1
         = to_int (alloced_bytes d - (strlen k' + strlen v' + sizeof_hd_entry A)) /\
         ~ hd_wf A d1).
Proof.
  intros Hwf Hst. pose proof (hd_hash_range A key) as Hh.
  destruct (hd_entry_remove_eq A d key Hwf)
    as [(pre & v & post & Hb & _ & _ & Heq)|[Hno _]]; [|done].
  exists pre, v, post. split; [done|]. split; [|split].
  - pose proof (wf_bucket A d _ Hwf Hh) as [Hall _]. rewrite Hb in Hall.
    apply Forall_app in Hall as [_ Hall]. apply Forall_cons in Hall as [_ Hall].
    destruct post as [|[k' v'|] post']; [by left|right; by eexists _, _, _|].
    by apply Forall_cons in Hall as [[] _].
  - by intros ->.
  - intros k' v' post' ->.
    destruct (successor_released_spec A d key pre v k' v' post' Hwf Hb)
      as (Hb1 & Hoth & Hn & _).
    exists (successor_released A d (hd_hash A key) (length pre) k' v').
    split; [done|]. split; [done|]. split; [done|]. split; [done|].
    split; [done|]. split; [done|].
    intros Hwf1. pose proof (wf_bucket A _ _ Hwf1 Hh) as [Hall _]. rewrite Hb1 in Hall.
    apply Forall_app in Hall as [_ Hall]. by apply Forall_cons in Hall as [[] _].
Qed.

Lemma hd_entry_remove_stored_witness :
  exists pre v post,
    bucket (inserted lp64 (inserted lp64 hd_create "a" "1") "ams" "2") (hd_hash lp64 "a")
    = pre ++ Entry "a" v :: post /\
    (post = [] \/ exists k' v' post', post = Entry k' v' :: post').
Proof.
  destruct (hd_entry_remove_stored lp64
              (inserted lp64 (inserted lp64 hd_create "a" "1") "ams" "2") "a"
              (proj1 hd_wf_two_in_a_chain) (proj2 hd_wf_two_in_a_chain))
    as (pre & v & post & H1 & H2 & _).
  exists pre, v, post. split; [exact H1|exact H2].
Defined.

(** X6.  Remove, then lookup.  Whenever a removal from a valid table
    returns 0, its key was stored, and afterwards the lookup of that very
    key is undefined: the walk passes the nodes in front of the match and
    enters the released one.  The lookup of a key of any other bucket
    returns what it returned before. *)
Theorem hd_entry_remove_then_lookup (A : abi) (d d' : hd_hashdict) (key : string) :
  hd_wf A d ->
  hd_entry_remove A (Some d) (Some key) = Ret (0, Some d') ->
  stored d (c_str key) /\
  hd_lookup A (Some d') (Some key) = Undefined /\
  forall k', hd_hash A k' <> hd_hash A key ->
    hd_lookup A (Some d') (Some k') = hd_lookup A (Some d) (Some k').
Proof.
  intros Hwf Hrem. pose proof (hd_hash_range A key) as Hh.
  destruct (hd_entry_remove_eq A d key Hwf)
    as [(pre & v & post & Hb & Hpre & _ & Heq)|[_ Heq]]; rewrite Heq in Hrem;
    [|discriminate Hrem].
  destruct post as [|[k' v'|] post']; [done| |done]. injection Hrem as <-.
  destruct (successor_released_spec A d key pre v k' v' post' Hwf Hb)
    as (Hb1 & Hoth & Hn & Hn2).
  assert (H0 : (num_entries d =? 0) = false) by (apply Z.eqb_neq; lia).
  assert (H1 : (num_entries (successor_released A d (hd_hash A key) (length pre) k' v') =? 0)
               = false) by (apply Z.eqb_neq; lia).
  split; [by eapply bucket_found_stored|]. split.
  - unfold hd_lookup, hd_lookup_entry. rewrite H1, Hb1.
    destruct (pre ++ [Released]) as [|cur rest] eqn:Hc; [by destruct pre|].
    rewrite (chain_walk_released A (hd_hash A key) key _ pre cur rest 0%nat); [done| |done|done].
    pose proof (wf_bucket A d _ Hwf Hh) as [Hall _]. rewrite Hb in Hall.
    by apply Forall_app in Hall as [? _].
  - intros k2 Hne. unfold hd_lookup, hd_lookup_entry.
    pose proof (hd_hash_range A k2). rewrite H0, H1, Hoth by (done || lia). done.
Qed.

Lemma hd_entry_remove_then_lookup_witness :
  hd_lookup lp64
    (Some (successor_released lp64
             (inserted lp64 (inserted lp64 hd_create "a" "1") "ams" "2") 518 0 "ams" "2"))
    (Some "a"%string) = Undefined.
Proof.
  apply (hd_entry_remove_then_lookup lp64
           (inserted lp64 (inserted lp64 hd_create "a" "1") "ams" "2")
           (successor_released lp64
              (inserted lp64 (inserted lp64 hd_create "a" "1") "ams" "2") 518 0 "ams" "2")
           "a" (proj1 hd_wf_two_in_a_chain) eq_refl).
Defined.

(** X7.  On a valid table the removal of a key that is not stored returns
    -EINVAL and leaves the table exactly as it was; that covers the empty
    table, an empty bucket and a chain that holds other keys only. *)
Theorem hd_entry_remove_missing (A : abi) (d : hd_hashdict) (key : string) :
  hd_wf A d -> ~ stored d (c_str key) ->
  hd_entry_remove A (Some d) (Some key) = Ret (- EINVAL, Some d).
Proof.
  intros Hwf Hst.
  by destruct (hd_entry_remove_eq A d key Hwf) as [(pre & v & post & Hb & _)|[_ Heq]];
    [destruct Hst; apply (stored_bucket A d key Hwf), chain_keys_elem; exists v;
     rewrite Hb, elem_of_app, elem_of_cons; tauto|].
Qed.

Lemma hd_entry_remove_missing_witness :
  hd_entry_remove lp64 (Some (inserted lp64 hd_create "a" "1")) (Some "b"%string)
  = Ret (- EINVAL, Some (inserted lp64 hd_create "a" "1")).
Proof.
  apply (hd_entry_remove_missing lp64 (inserted lp64 hd_create "a" "1") "b"
           (hd_wf_inserted_create lp64 "a" "1")).
  by intros H%stored_inserted_create.
Defined.

(** ** Update *)

(** X8.  Update, then lookup.  On a valid table the update of a stored key
    whose allocation succeeds (the new value fitting [hd_stralloc]) returns
    0; afterwards the lookup of that key returns the text of the new value,
    the lookup of every other key returns what it returned before, and the
    byte counter has moved by the difference of the two value lengths. *)
Theorem hd_entry_update_then_lookup (A : abi) (d : hd_hashdict) (key value : string) :
  hd_wf A d -> stored d (c_str key) -> fits value = true ->
  exists old d1,
    hd_lookup A (Some d) (Some key) = Ret (Some old) /\
    hd_entry_update A true (Some d) (Some key) (Some value) = Ret (0, Some d1) /\
    hd_wf A d1 /\
    hd_lookup A (Some d1) (Some key) = Ret (Some (c_str value)) /\
    (forall k', c_str k' <> c_str key ->
       hd_lookup A (Some d1) (Some k') = hd_lookup A (Some d) (Some k')) /\
    alloced_bytes d1 = to_int (alloced_bytes d + (strlen value - strlen old)).
Proof.
  intros Hwf Hst Hfit.
  destruct (hd_entry_update_eq A true d key (Some value) Hwf)
    as [(pre & v & post & Hb & _ & _ & Heq)|[Hno _]]; [|done].
  rewrite Hfit in Heq. simpl in Heq.
  pose proof (wf_updated A d key pre v post value Hwf Hb) as Hwf'.
  pose proof (table_map_updated A d key pre v post value Hwf Hb) as Hmap.
  exists v, (updated d (hd_hash A key) (length pre) (c_str key) v value).
  split; [|split; [done|split; [done|split; [|split; [|done]]]]].
  - rewrite hd_lookup_map by done. f_equal. apply (table_map_lookup A d _ _ Hwf).
    apply (bucket_nodes A _ (hd_hash A key)); [done|apply hd_hash_range|].
    rewrite Hb, elem_of_app, elem_of_cons. tauto.
  - rewrite hd_lookup_map, Hmap by done. by rewrite lookup_insert_eq.
  - intros k' Hne. apply (hd_lookup_other A d _ key); try done.
    intros k Hk. rewrite Hmap. by rewrite lookup_insert_ne.
Qed.

Lemma hd_entry_update_then_lookup_witness :
  exists old d1,
    hd_lookup lp64 (Some (inserted lp64 hd_create "a" "1")) (Some "a"%string) = Ret (Some old) /\
    hd_entry_update lp64 true (Some (inserted lp64 hd_create "a" "1")) (Some "a"%string)
      (Some "9"%string) = Ret (0, Some d1) /\
    hd_lookup lp64 (Some d1) (Some "a"%string) = Ret (Some "9"%string).
Proof.
  destruct (hd_entry_update_then_lookup lp64 (inserted lp64 hd_create "a" "1") "a" "9"
              (hd_wf_inserted_create lp64 "a" "1")
              (stored_inserted lp64 hd_create "a" "1" (hd_wf_create lp64)) eq_refl)
    as (old & d1 & H1 & H2 & _ & H3 & _).
  exists old, d1. split; [exact H1|split; [exact H2|exact H3]].
Defined.

(** X9.  On a valid table the update of a key that is not stored returns
    -EINVAL and leaves the table exactly as it was, whatever the value
    (NULL included) and whatever the allocator would have done: the key is
    looked up before anything is allocated. *)
Theorem hd_entry_update_missing (A : abi) (m_val : bool) (d : hd_hashdict)
    (key : string) (value : option string) :
  hd_wf A d -> ~ stored d (c_str key) ->
  hd_entry_update A m_val (Some d) (Some key) value = Ret (- EINVAL, Some d).
Proof.
  intros Hwf Hst.
  by destruct (hd_entry_update_eq A m_val d key value Hwf)
    as [(pre & v & post & Hb & _)|[_ Heq]];
    [destruct Hst; apply (stored_bucket A d key Hwf), chain_keys_elem; exists v;
     rewrite Hb, elem_of_app, elem_of_cons; tauto|].
Qed.

Lemma hd_entry_update_missing_witness :
  hd_entry_update lp64 false (Some (inserted lp64 hd_create "a" "1")) (Some "b"%string) None
  = Ret (- EINVAL, Some (inserted lp64 hd_create "a" "1")).
Proof.
  apply (hd_entry_update_missing lp64 false (inserted lp64 hd_create "a" "1") "b" None
           (hd_wf_inserted_create lp64 "a" "1")).
  by intros H%stored_inserted_create.
Defined.

(** ** Sequences of calls and the finite map *)

(** X10.  The table implements a finite map as long as nothing is taken
    out of it.  After any sequence of calls on a fresh table (fewer than
    UINT_MAX of them, within defined behaviour) in which no remove finds
    its key, the nodes of the table are exactly the bindings of the map
    obtained by running the same calls as map operations: insert-if-absent
    and overwrite-if-present.  Every lookup returns what that map holds and
    [num_entries] is its size. *)
Theorem run_refines_map (A : abi) (ops : list op) (d : hd_hashdict) :
  Z.of_nat (length ops) <= UINT_MAX ->
  removes_miss ∅ ops = true ->
  run A ops hd_create = Ret d ->
  table_map d = map_run ops /\
  (forall k v, Entry k v ∈ nodes d <-> map_run ops !! k = Some v) /\
  (forall key, hd_lookup A (Some d) (Some key) = Ret (map_run ops !! c_str key)) /\
  num_entries d = Z.of_nat (size (map_run ops)).
Proof.
  intros Hlen Hmiss Hrun.
  destruct (run_map A ops hd_create d (hd_wf_create A)) as [Hwf Hmap];
    [simpl; lia|by rewrite table_keys_create|done|].
  rewrite table_map_create in Hmap. fold (map_run ops) in Hmap.
  split; [done|]. split; [|split].
  - intros k v. by rewrite <- Hmap, (table_map_lookup A d k v Hwf).
  - intros key. by rewrite hd_lookup_map, Hmap.
  - by rewrite (wf_map_size A d Hwf), Hmap.
Qed.

Lemma run_refines_map_witness :
  exists d,
    run lp64 [OpInsert true true true (Some "a"%string) (Some "1"%string);
              OpRemove (Some "b"%string);
              OpUpdate true (Some "a"%string) (Some "9"%string)] hd_create = Ret d /\
    hd_lookup lp64 (Some d) (Some "a"%string) = Ret (Some "9"%string).
Proof.
  exists (updated (inserted lp64 hd_create "a" "1") 518 0 "a" "1" "9").
  split; [reflexivity|].
  destruct (run_refines_map lp64
              [OpInsert true true true (Some "a"%string) (Some "1"%string);
               OpRemove (Some "b"%string);
               OpUpdate true (Some "a"%string) (Some "9"%string)]
              (updated (inserted lp64 hd_create "a" "1") 518 0 "a" "1" "9")
              ltac:(simpl; unfold UINT_MAX; lia) ltac:(vm_compute; reflexivity) eq_refl)
    as (_ & _ & Hl & _).
  rewrite Hl. vm_compute. reflexivity.
Defined.

Lemma map_insert_all_other kvs (m : gmap string string) x :
  x ∉ c_str <$> kvs.*1 ->
  fold_left map_step (insert_all kvs) m !! x = m !! x.
Proof.
  revert m. induction kvs as [|[k v] kvs IH]; intros m Hx; [done|].
  rewrite !fmap_cons, not_elem_of_cons in Hx. destruct Hx as [Hne Hx].
  simpl. rewrite IH by done. destruct (m !! c_str k); [done|]. by rewrite lookup_insert_ne.
Qed.

Lemma map_insert_all kvs (m : gmap string string) :
  NoDup (c_str <$> kvs.*1) ->
  (forall x, x ∈ c_str <$> kvs.*1 -> m !! x = None) ->
  (forall k v, (k, v) ∈ kvs -> fold_left map_step (insert_all kvs) m !! c_str k = Some (c_str v)) /\
  size (fold_left map_step (insert_all kvs) m) = (size m + length kvs)%nat.
Proof.
  revert m. induction kvs as [|[k0 v0] kvs IH]; intros m Hnd Hm.
  { split; [by intros k v ?%elem_of_nil|simpl; lia]. }
  rewrite !fmap_cons in Hnd, Hm. apply NoDup_cons in Hnd as [Hk0 Hnd]. simpl in *.
  rewrite (Hm (c_str k0)) by (apply elem_of_cons; by left).
  destruct (IH (<[c_str k0 := c_str v0]> m) Hnd) as [IHl IHs].
  { intros x Hx. rewrite lookup_insert_ne by (by intros <-). apply Hm, elem_of_cons. by right. }
  split.
  - intros k v [[= -> ->]|Hin]%elem_of_cons; [|by apply IHl].
    rewrite map_insert_all_other by done. by rewrite lookup_insert_eq.
  - rewrite IHs, map_size_insert_None by (apply Hm, elem_of_cons; by left). lia.
Qed.

Lemma insert_all_defined kvs :
  Forall (fun kv => fits kv.1 = true /\ fits kv.2 = true) kvs ->
  forallb op_defined (insert_all kvs) = true.
Proof.
  induction 1 as [|[k v] kvs [Hk Hv] _ IH]; [done|]. simpl in *. by rewrite Hk, Hv, IH.
Qed.

Lemma insert_all_no_remove s kvs : removes_miss s (insert_all kvs) = true.
Proof. revert s. induction kvs as [|[k v] kvs IH]; intros s; [done|]. apply IH. Qed.

(** X11.  Round trip.  Starting from a fresh table, insert any list of
    pairs whose key texts are pairwise distinct (allocations succeeding, at
    most UINT_MAX pairs): the calls all return, the table is valid,
    [num_entries] is the length of the list, every key looks up to the text
    of its value, and every key that is not in the list looks up to NULL
    and is refused by remove with -EINVAL, the table staying as it is. *)
Theorem insert_all_round_trip (A : abi) (kvs : list (string * string)) :
  NoDup (c_str <$> kvs.*1) ->
  Forall (fun kv => fits kv.1 = true /\ fits kv.2 = true) kvs ->
  Z.of_nat (length kvs) <= UINT_MAX ->
  exists d1,
    run A (insert_all kvs) hd_create = Ret d1 /\
    hd_wf A d1 /\
    num_entries d1 = Z.of_nat (length kvs) /\
    (forall k v, (k, v) ∈ kvs -> hd_lookup A (Some d1) (Some k) = Ret (Some (c_str v))) /\
    (forall k, c_str k ∉ c_str <$> kvs.*1 ->
       hd_lookup A (Some d1) (Some k) = Ret None /\
       hd_entry_remove A (Some d1) (Some k) = Ret (- EINVAL, Some d1)).
Proof.
  intros Hnd Hfit Hlen.
  assert (Hl1 : num_entries hd_create + Z.of_nat (length (insert_all kvs)) <= UINT_MAX).
  { unfold insert_all. rewrite length_fmap. simpl. lia. }
  destruct (run_defined A (insert_all kvs) hd_create (hd_wf_create A) Hl1) as [d1 Hrun1].
  { by apply insert_all_defined. }
  { apply insert_all_no_remove. }
  destruct (run_map A _ _ _ (hd_wf_create A) Hl1 (insert_all_no_remove _ _) Hrun1)
    as [Hwf1 Hmap1].
  rewrite table_map_create in Hmap1.
  destruct (map_insert_all kvs ∅ Hnd) as [Hlook Hsize]; [by intros; apply lookup_empty|].
  exists d1. split; [done|]. split; [done|]. split; [|split].
  - rewrite (wf_map_size A d1 Hwf1), Hmap1, Hsize, map_size_empty. done.
  - intros k v Hin. rewrite hd_lookup_map, Hmap1 by done. f_equal. by apply Hlook.
  - intros k Hk.
    assert (Hnone : table_map d1 !! c_str k = None).
    { rewrite Hmap1, map_insert_all_other by done. apply lookup_empty. }
    split; [by rewrite hd_lookup_map, Hnone|].
    destruct (hd_entry_remove_eq A d1 k Hwf1) as [(pre & v & post & Hb & _)|[_ Heq]]; [|done].
    apply (bucket_found_stored A d1 k pre v post Hwf1), (table_map_dom A d1 _ Hwf1) in Hb.
    rewrite Hnone in Hb. by destruct Hb.
Qed.

Lemma insert_all_round_trip_witness :
  exists d1,
    run lp64 (insert_all [("a", "1"); ("b", "2")]%string) hd_create = Ret d1 /\
    num_entries d1 = 2.
Proof.
  destruct (insert_all_round_trip lp64 [("a", "1"); ("b", "2")]%string)
    as (d1 & H1 & _ & H2 & _).
  - vm_compute. apply (bool_decide_unpack _). vm_compute. exact I.
  - repeat constructor.
  - vm_compute. discriminate.
  - exists d1. split; [exact H1|exact H2].
Defined.

(** ** NULL values *)

(** X12.  A NULL value is not guarded.  On a valid table the insert of a
    key that is not stored with a NULL value runs [strlen(NULL)] in
    [hd_stralloc] once the node is allocated, and so does the update of a
    stored key with a NULL value: both are undefined.  The NULL is only
    harmless when the key check returns first (X9, C2). *)
Theorem null_value_is_undefined (A : abi) (m_key m_val : bool) (d : hd_hashdict)
    (key : string) :
  hd_wf A d ->
  (~ stored d (c_str key) ->
   hd_entry_insert A true m_key m_val (Some d) (Some key) None = Undefined) /\
  (stored d (c_str key) ->
   hd_entry_update A m_val (Some d) (Some key) None = Undefined).
Proof.
  intros Hwf. split; intros Hst.
  - rewrite (hd_entry_insert_eq A) by done.
    rewrite <- table_keys_elem in Hst. by rewrite decide_False.
  - by destruct (hd_entry_update_eq A m_val d key None Hwf)
      as [(pre & v & post & _ & _ & _ & ->)|[Hno _]].
Qed.

Lemma null_value_is_undefined_witness :
  hd_entry_insert lp64 true true true (Some hd_create) (Some "a"%string) None = Undefined /\
  hd_entry_update lp64 true (Some (inserted lp64 hd_create "a" "1")) (Some "a"%string) None
  = Undefined.
Proof.
  split.
  - apply (null_value_is_undefined lp64 true true hd_create "a" (hd_wf_create lp64)),
      not_stored_create.
  - apply (null_value_is_undefined lp64 true true (inserted lp64 hd_create "a" "1") "a"
             (hd_wf_inserted_create lp64 "a" "1")),
      (stored_inserted lp64 hd_create "a" "1" (hd_wf_create lp64)).
Defined.

(** ** The invariants of the table *)

(** X13.  Every call that returns, a remove of a stored key apart, keeps a
    valid table valid (the entry counter being short of UINT_MAX):
    afterwards each node still hangs in the bucket its key hashes to, holds
    NUL-free text, no two nodes of the table hold the same key, and
    [num_entries] is the number of nodes. *)
Theorem step_keeps_valid (A : abi) (d d' : hd_hashdict) (o : op) :
  hd_wf A d -> num_entries d < UINT_MAX ->
  (forall k, o = OpRemove (Some k) -> ~ stored d (c_str k)) ->
  step A d o = Ret d' ->
  hd_wf A d' /\
  length (entries d') = Z.to_nat HASHSIZE /\
  (forall (i : nat) c k v,
     entries d' !! i = Some c -> Entry k v ∈ c ->
     hd_hash A k = Z.of_nat i /\ c_str k = k /\ c_str v = v) /\
  (forall e, e ∈ nodes d' -> e <> Released) /\
  NoDup (chain_keys (nodes d')) /\
  num_entries d' = Z.of_nat (length (nodes d')).
Proof.
  intros Hwf Hmax Hmiss Hstep.
  destruct (step_inv A d o d' Hwf Hmax Hmiss Hstep) as (Hwf' & _ & _).
  split; [done|]. split; [by apply (wf_length A)|]. split; [|split; [|split]].
  - intros i c k v Hi Hin. destruct (wf_lookup A d' i c Hwf' Hi) as [Hall _].
    rewrite Forall_forall in Hall. destruct (Hall _ Hin) as (? & ? & ?). done.
  - intros e Hin ->. apply list_elem_of_join in Hin as (c & Hin & Hc).
    apply list_elem_of_lookup in Hc as (i & Hi).
    destruct (wf_lookup A d' i c Hwf' Hi) as [Hall _].
    rewrite Forall_forall in Hall. by apply Hall in Hin.
  - destruct Hwf' as (Hall & _). by destruct (wf_all_keys A _ _ _ Hall) as [? _].
  - by destruct Hwf' as (_ & ? & _).
Qed.

Lemma step_keeps_valid_witness :
  hd_wf lp64 (inserted lp64 hd_create "a" "1") /\
  NoDup (chain_keys (nodes (inserted lp64 hd_create "a" "1"))).
Proof.
  destruct (step_keeps_valid lp64 hd_create (inserted lp64 hd_create "a" "1")
              (OpInsert true true true (Some "a"%string) (Some "1"%string))
              (hd_wf_create lp64) ltac:(vm_compute; reflexivity)
              ltac:(intros k H; discriminate H) eq_refl)
    as (H1 & _ & _ & _ & H2 & _).
  split; [exact H1|exact H2].
Defined.

(** ** Teardown *)

Lemma join_replicate_nil (n : nat) : mjoin (replicate n ([] : chain)) = [].
Proof. apply join_nil, Forall_forall. by intros c [-> _]%elem_of_replicate. Qed.

(** The teardown of a valid table returns a valid table without nodes. *)
Lemma hd_free_spec (A : abi) (d : hd_hashdict) :
  hd_wf A d ->
  exists d1,
    hd_free A (Some d) = Ret (Some d1) /\
    entries d1 = replicate (Z.to_nat HASHSIZE) [] /\
    nodes d1 = [] /\
    num_entries d1 = 0 /\
    hd_wf A d1.
Proof.
  intros Hwf. exists (torn_down A d). split; [by apply hd_free_wf|].
  split; [done|]. split; [|split; [done|]].
  - unfold nodes, torn_down. cbn [entries]. apply join_replicate_nil.
  - destruct Hwf as (_ & _ & _ & Hcoll & _).
    split; [|split; [|split; [|split]]]; cbn [torn_down num_entries collisions alloced_bytes];
      [| |done|done|apply to_int_range].
    + apply Forall2_same_length_lookup. split; [by rewrite length_seqZ|].
      intros i x c Hx Hc. apply lookup_replicate in Hc as [-> _].
      split; [apply Forall_nil_2|apply NoDup_nil_2].
    + unfold node_count, nodes, torn_down. cbn [entries].
      by rewrite join_replicate_nil.
Qed.

(** X14.  The teardown of a valid table returns; afterwards every bucket
    is empty, no node is reachable, [num_entries] is 0, the collision
    counter is as it was, the table is valid again, and the byte counter
    has gone down by [2 * sizeof(char * ) + sizeof(struct hd_entry)] for
    each node there was, whatever the strings it held. *)
Theorem hd_free_releases_every_node (A : abi) (d : hd_hashdict) :
  hd_wf A d ->
  exists d1,
    hd_free A (Some d) = Ret (Some d1) /\
    entries d1 = replicate (Z.to_nat HASHSIZE) [] /\
    (forall h, bucket d1 h = []) /\
    nodes d1 = [] /\
    num_entries d1 = 0 /\
    collisions d1 = collisions d /\
    alloced_bytes d1
    = to_int (alloced_bytes d -
              Z.of_nat (node_count d) * (2 * sizeof_ptr A + sizeof_hd_entry A)) /\
    hd_wf A d1.
Proof.
  intros Hwf. destruct (hd_free_spec A d Hwf) as (d1 & Hfree & He & Hn & Hnum & Hwf1).
  exists d1. split; [done|]. split; [done|].
  assert (Hd1 : d1 = torn_down A d).
  { rewrite (hd_free_wf A d Hwf) in Hfree. by injection Hfree as <-. }
  split; [|split; [done|split; [done|split; [|split; [|done]]]]].
  - intros h. unfold bucket. rewrite He.
    destruct (replicate (Z.to_nat HASHSIZE) [] !! Z.to_nat h) as [c|] eqn:Hc; [|done].
    by apply lookup_replicate in Hc as [-> _].
  - by rewrite Hd1.
  - rewrite Hd1. unfold torn_down. cbn [alloced_bytes]. f_equal. lia.
Qed.

Lemma hd_free_releases_every_node_witness :
  exists d1,
    hd_free lp64 (Some (inserted lp64 hd_create "a" "1")) = Ret (Some d1) /\
    nodes d1 = [] /\ num_entries d1 = 0.
Proof.
  destruct (hd_free_releases_every_node lp64 (inserted lp64 hd_create "a" "1")
              (hd_wf_inserted_create lp64 "a" "1"))
    as (d1 & H1 & _ & _ & H2 & H3 & _).
  exists d1. split; [exact H1|split; [exact H2|exact H3]].
Defined.

(** X15.  A second teardown is a no-op: tearing down a table that the
    teardown of a valid table left behind returns that same table, bytes
    counter included.  In particular the teardown of a fresh table changes
    nothing. *)
Theorem hd_free_twice (A : abi) (d d1 : hd_hashdict) :
  hd_wf A d -> hd_free A (Some d) = Ret (Some d1) ->
  hd_free A (Some d1) = Ret (Some d1) /\
  hd_free A (Some hd_create) = Ret (Some hd_create).
Proof.
  intros Hwf Hfree.
  assert (Hnop : forall d0, hd_wf A d0 -> nodes d0 = [] ->
            entries d0 = replicate (Z.to_nat HASHSIZE) [] ->
            hd_free A (Some d0) = Ret (Some d0)).
  { intros d0 Hwf0 Hn He. rewrite (hd_free_wf A d0 Hwf0). do 2 f_equal.
    unfold torn_down, node_count. rewrite Hn. change (Z.of_nat (length [])) with 0.
    rewrite Z.mul_0_l, Z.sub_0_r.
    destruct Hwf0 as (_ & Hc & _ & _ & Hb). unfold node_count in Hc. rewrite Hn in Hc.
    rewrite to_int_small by done. destruct d0 as [es n c b].
    cbn [entries num_entries collisions alloced_bytes] in *. by subst. }
  destruct (hd_free_spec A d Hwf) as (d1' & Hf & He & Hn & _ & Hwf1).
  rewrite Hf in Hfree. injection Hfree as <-. split.
  - by apply Hnop.
  - apply Hnop; [apply hd_wf_create| |done].
    unfold nodes, hd_create. cbn [entries]. apply join_replicate_nil.
Qed.

Lemma hd_free_twice_witness :
  hd_free lp64 (Some (set_alloced_bytes hd_create (-12)))
  = Ret (Some (set_alloced_bytes hd_create (-12))).
Proof.
  apply (hd_free_twice lp64 (inserted lp64 hd_create "a" "1") (set_alloced_bytes hd_create (-12))
           (hd_wf_inserted_create lp64 "a" "1")).
  vm_compute. reflexivity.
Defined.

(** ** The byte counter *)

Lemma to_int_add x y : to_int (to_int x + y) = to_int (x + y).
Proof.
  unfold to_int. f_equal.
  replace ((x + 2 ^ 31) mod 2 ^ 32 - 2 ^ 31 + y + 2 ^ 31)
    with ((x + 2 ^ 31) mod 2 ^ 32 + y) by lia.
  rewrite Zplus_mod_idemp_l. f_equal. lia.
Qed.

Lemma chain_bytes_app A (c1 c2 : chain) :
  chain_bytes A (c1 ++ c2) = chain_bytes A c1 + chain_bytes A c2.
Proof. induction c1 as [|e c1 IH]; [done|]. simpl. rewrite IH. lia. Qed.

Lemma live_bytes_replace A d d' h c' :
  hd_wf A d -> 0 <= h < HASHSIZE ->
  entries d' = <[Z.to_nat h := c']> (entries d) ->
  live_bytes A d' = live_bytes A d - chain_bytes A (bucket d h) + chain_bytes A c'.
Proof.
  intros Hwf Hh He. destruct (nodes_replace A d d' h c' Hwf Hh He) as (N1 & N2 & HN & HN').
  unfold live_bytes. rewrite HN, HN', !chain_bytes_app. lia.
Qed.

(** A call that is not a remove finding its key keeps the byte counter on
    the bytes of the live nodes. *)
Lemma step_bytes A d o d' :
  hd_wf A d -> num_entries d < UINT_MAX ->
  (forall k, o = OpRemove (Some k) -> ~ stored d (c_str k)) ->
  step A d o = Ret d' ->
  alloced_bytes d = to_int (live_bytes A d) ->
  alloced_bytes d' = to_int (live_bytes A d').
Proof.
  intros Hwf Hmax Hmiss Hstep Hinv. pose proof (hd_hash_range A) as Hh.
  destruct o as [m_node m_key m_val [key|] value|[key|]|key|m_val [key|] value];
    simpl in Hstep.
  - rewrite (hd_entry_insert_eq A) in Hstep by done.
    destruct (decide (c_str key ∈ table_keys d)) as [Hst|Hst].
    { by injection Hstep as <-. }
    destruct m_node; simpl in Hstep.
    + destruct value as [v|]; [|done].
      destruct (m_key && fits key && (m_val && fits v)); simpl in Hstep; [|done].
      injection Hstep as <-.
      rewrite (live_bytes_replace A d _ (hd_hash A key)
                 (bucket d (hd_hash A key) ++ [Entry (c_str key) (c_str v)])) by done.
      rewrite chain_bytes_app. simpl. rewrite Hinv, to_int_add, !strlen_c_str. f_equal. lia.
    + injection Hstep as <-. unfold count_collision.
      by destruct (bucket d (hd_hash A key)).
  - by injection Hstep as <-.
  - destruct (hd_entry_remove_eq A d key Hwf)
      as [(pre & v & post & Hb & _)|[Hst Heq]].
    { destruct (Hmiss key eq_refl). by eapply bucket_found_stored. }
    rewrite Heq in Hstep. simpl in Hstep. by injection Hstep as <-.
  - by injection Hstep as <-.
  - destruct (hd_lookup A (Some d) key); simpl in Hstep; [|done]. by injection Hstep as <-.
  - destruct (hd_entry_update_eq A m_val d key value Hwf)
      as [(pre & v & post & Hb & _ & _ & Heq)|[Hst Heq]]; rewrite Heq in Hstep.
    + destruct value as [nv|]; [|done]. destruct (m_val && fits nv); simpl in Hstep; [|done].
      injection Hstep as <-.
      rewrite (live_bytes_replace A d _ (hd_hash A key)
                 (pre ++ Entry (c_str key) (c_str nv) :: post)) by
        (done || (simpl; by rewrite Hb, insert_middle)).
      rewrite Hb, !chain_bytes_app. simpl.
      rewrite Hinv, to_int_add, !strlen_c_str. f_equal. lia.
    + simpl in Hstep. by injection Hstep as <-.
  - by injection Hstep as <-.
Qed.

Lemma run_bytes A ops d d' :
  hd_wf A d -> num_entries d + Z.of_nat (length ops) <= UINT_MAX ->
  removes_miss (table_keys d) ops = true ->
  run A ops d = Ret d' ->
  alloced_bytes d = to_int (live_bytes A d) ->
  alloced_bytes d' = to_int (live_bytes A d').
Proof.
  revert d. induction ops as [|o ops IH]; intros d Hwf Hmax Hmiss; simpl.
  { by intros [= <-]. }
  destruct (step A d o) as [d1|] eqn:Hstep; simpl; [|done].
  intros Hrun Hinv. simpl in Hmax. apply removes_miss_cons in Hmiss as [Hm Hmiss].
  assert (Hm' : forall k, o = OpRemove (Some k) -> ~ stored d (c_str k)).
  { intros k Hk. rewrite <- table_keys_elem. by apply Hm. }
  destruct (step_inv A d o d1 Hwf ltac:(lia) Hm' Hstep) as (Hwf1 & Hk & Hn).
  pose proof (step_bytes A d o d1 Hwf ltac:(lia) Hm' Hstep Hinv) as Hb1.
  rewrite <- Hk in Hmiss. apply (IH d1 Hwf1 ltac:(lia) Hmiss Hrun Hb1).
Qed.

(** X16.  The byte counter.  After any sequence of calls on a fresh table
    (fewer than UINT_MAX, within defined behaviour) in which no remove
    finds its key, [alloced_bytes] is, modulo the wrap of [int], the bytes
    behind the live nodes, strings with terminators, and nodes: inserts and
    updates keep the counter exact.  The teardown then takes two pointers
    and a node per node off it, whatever the strings were. *)
Theorem alloced_bytes_accounting (A : abi) (ops : list op) (d : hd_hashdict) :
  Z.of_nat (length ops) <= UINT_MAX ->
  removes_miss ∅ ops = true ->
  run A ops hd_create = Ret d ->
  alloced_bytes d = to_int (live_bytes A d) /\
  exists d1,
    hd_free A (Some d) = Ret (Some d1) /\
    alloced_bytes d1
    = to_int (live_bytes A d -
              Z.of_nat (node_count d) * (2 * sizeof_ptr A + sizeof_hd_entry A)).
Proof.
  intros Hlen Hmiss Hrun. rewrite <- table_keys_create in Hmiss.
  destruct (run_inv A ops hd_create d (hd_wf_create A)) as [Hwf _]; [simpl; lia|done|done|].
  assert (Hb : alloced_bytes d = to_int (live_bytes A d)).
  { apply (run_bytes A ops hd_create d (hd_wf_create A)); [simpl; lia|done|done|].
    unfold live_bytes, nodes, hd_create. cbn [entries alloced_bytes].
    by rewrite join_replicate_nil. }
  split; [done|]. exists (torn_down A d). split; [by apply hd_free_wf|].
  unfold torn_down. cbn [alloced_bytes]. rewrite Hb, to_int_sub. f_equal. lia.
Qed.

Lemma alloced_bytes_accounting_witness :
  alloced_bytes (updated (inserted lp64 hd_create "a" "1") 518 0 "a" "1" "999")
  = to_int (live_bytes lp64 (updated (inserted lp64 hd_create "a" "1") 518 0 "a" "1" "999")).
Proof.
  apply (alloced_bytes_accounting lp64
           [OpInsert true true true (Some "a"%string) (Some "1"%string);
            OpUpdate true (Some "a"%string) (Some "999"%string)]
           (updated (inserted lp64 hd_create "a" "1") 518 0 "a" "1" "999")
           ltac:(simpl; unfold UINT_MAX; lia) eq_refl eq_refl).
Defined.

(** ** hd_print *)

Lemma str_length_app (a b : string) :
  String.length (a +:+ b) = (String.length a + String.length b)%nat.
Proof. induction a as [|c a IH]; [done|]. simpl. by rewrite IH. Qed.

Lemma str_repeat_length (s : string) (n : nat) :
  String.length (str_repeat s n) = (n * String.length s)%nat.
Proof. induction n as [|n IH]; [done|]. simpl. rewrite str_length_app, IH. lia. Qed.

Lemma str_take_length (n : nat) (s : string) :
  String.length (str_take n s) = (n `min` String.length s)%nat.
Proof.
  revert s. induction n as [|n IH]; intros [|c s]; simpl; try done. by rewrite IH.
Qed.

Lemma pad_right_length (width : Z) (s : string) :
  String.length (pad_right width s) = (Z.to_nat width `max` String.length s)%nat.
Proof. unfold pad_right. rewrite str_length_app, str_repeat_length. simpl. lia. Qed.

Lemma print_cell_length (width : Z) (s : string) :
  4 <= width -> Z.of_nat (String.length (print_cell width s)) <= width - 1.
Proof.
  intros Hw. unfold print_cell. pose proof (strlen_length s) as Hs.
  destruct (Z.gtb_spec (strlen s) (width - 4)).
  - rewrite str_length_app, str_take_length. simpl. lia.
  - lia.
Qed.

(** X17.  The cells of the printed table.  For a column of [width] at
    least 4, [hd_print] shows a string of at most [width - 4] bytes in
    full and any longer one as its first [width - 4] bytes followed by
    three dots; what it builds is at most [width - 1] bytes long and so
    fits, with its terminator, the buffer of [width + 1] bytes it is built
    in.  With the widths of the source, keys are cut beyond 9 bytes and
    values beyond 44. *)
Theorem print_cell_truncates (width : Z) (s : string) :
  4 <= width ->
  Z.of_nat (String.length (print_cell width s)) + 1 <= width + 1 /\
  (strlen s <= width - 4 -> print_cell width s = c_str s) /\
  (width - 4 < strlen s ->
   print_cell width s = str_take (Z.to_nat (width - 4)) (c_str s) +:+ "..." /\
   Z.of_nat (String.length (print_cell width s)) = width - 1) /\
  key_width - 4 = 9 /\ val_width - 4 = 44.
Proof.
  intros Hw. pose proof (print_cell_length width s Hw) as Hlen.
  split; [lia|]. unfold print_cell in *. pose proof (strlen_length s) as Hs.
  destruct (Z.gtb_spec (strlen s) (width - 4)); split; try (intros; lia); try done.
  - split; [|done]. intros _. split; [done|].
    rewrite str_length_app, str_take_length. simpl. lia.
  - split; [|done]. intros ?. lia.
Qed.

Lemma print_cell_truncates_witness :
  print_cell key_width "abcdefghij" = "abcdefghi..."%string.
Proof.
  destruct (print_cell_truncates key_width "abcdefghij" ltac:(unfold key_width; lia))
    as (_ & _ & H & _).
  destruct (H ltac:(vm_compute; reflexivity)) as [-> _]. reflexivity.
Defined.

Lemma dec_index_length :
  Forall (fun i => (String.length (dec i) <= 6)%nat) (seqZ 0 HASHSIZE).
Proof. apply (bool_decide_unpack _). vm_compute. exact I. Qed.

Lemma print_row_length i k v r :
  0 <= i < HASHSIZE -> print_row i (Entry k v) = Ret r -> String.length r = 86%nat.
Proof.
  intros Hi [= <-].
  assert (Hd : (String.length (dec i) <= 6)%nat).
  { pose proof dec_index_length as Hall. rewrite Forall_forall in Hall. apply Hall.
    apply elem_of_seqZ. lia. }
  pose proof (print_cell_length key_width k ltac:(unfold key_width; lia)) as Hk.
  pose proof (print_cell_length val_width v ltac:(unfold val_width; lia)) as Hv.
  rewrite !str_length_app, !pad_right_length.
  unfold key_width, val_width, idx_width, nl in *. simpl String.length. lia.
Qed.

Lemma print_chain_rows A i (c : chain) :
  0 <= i < HASHSIZE -> Forall (entry_wf A i) c ->
  exists rows : list string,
    print_chain i c = Ret (str_concat rows) /\
    Forall (fun r => String.length r = 86%nat) rows /\
    Forall2 (fun r e => print_row i e = Ret r) rows c.
Proof.
  intros Hi. induction 1 as [|e c He _ (rows & Hp & Hl & Hr)].
  { by exists []. }
  apply entry_wf_inv in He as (k & v & -> & _).
  destruct (print_row i (Entry k v)) as [r|] eqn:Hrow; [|done].
  exists (r :: rows). split; [|split].
  - cbn [print_chain]. by rewrite Hrow, Hp.
  - apply Forall_cons. split; [by eapply print_row_length|done].
  - by apply Forall2_cons.
Qed.

Lemma str_app_assoc (a b c : string) : (a +:+ b) +:+ c = a +:+ (b +:+ c).
Proof.
  induction a as [|x a IH]; [done|].
  change (String x ((a +:+ b) +:+ c) = String x (a +:+ (b +:+ c))). by rewrite IH.
Qed.

Lemma str_concat_app (l1 l2 : list string) :
  str_concat (l1 ++ l2) = str_concat l1 +:+ str_concat l2.
Proof.
  induction l1 as [|s l1 IH]; [done|].
  change (str_concat ((s :: l1) ++ l2)) with (s +:+ str_concat (l1 ++ l2)).
  change (str_concat (s :: l1)) with (s +:+ str_concat l1).
  by rewrite IH, str_app_assoc.
Qed.

Lemma Forall2_elem_r {X Y} (P : X -> Y -> Prop) (l : list X) (k : list Y) :
  Forall2 P l k -> Forall2 (fun x y => P x y /\ y ∈ k) l k.
Proof.
  induction 1 as [|x y l k Hxy _ IH]; [constructor|].
  constructor; [split; [done|by left]|].
  eapply Forall2_impl; [exact IH|]. intros x' y' [? ?]. split; [done|by right].
Qed.

Lemma print_buckets_rows A d (idx : list Z) :
  hd_wf A d -> Forall (fun i => 0 <= i < HASHSIZE) idx ->
  exists rows : list string,
    print_buckets idx d = Ret (str_concat rows) /\
    Forall (fun r => String.length r = 86%nat) rows /\
    Forall2 (fun r e => exists i, 0 <= i < HASHSIZE /\ e ∈ bucket d i /\ print_row i e = Ret r)
      rows (mjoin (bucket d <$> idx)).
Proof.
  intros Hwf. induction 1 as [|i idx Hi _ (rows & Hp & Hl & Hr)].
  { by exists []. }
  destruct (wf_bucket A d i Hwf Hi) as [Hall _].
  destruct (print_chain_rows A i (bucket d i) Hi Hall) as (rows0 & Hp0 & Hl0 & Hr0).
  exists (rows0 ++ rows). split; [|split].
  - cbn [print_buckets]. rewrite Hp0, Hp. cbn [mbind outcome_bind].
    by rewrite str_concat_app.
  - by apply Forall_app.
  - rewrite fmap_cons. change (mjoin (bucket d i :: (bucket d <$> idx)))
      with (bucket d i ++ mjoin (bucket d <$> idx)).
    apply Forall2_app; [|done].
    eapply Forall2_impl; [apply Forall2_elem_r, Hr0|].
    intros r e [Hrow Hin]. by exists i.
Qed.

Lemma entries_buckets A d : hd_wf A d -> bucket d <$> seqZ 0 HASHSIZE = entries d.
Proof.
  intros Hwf. apply list_eq. intros n. rewrite list_lookup_fmap.
  destruct (decide (Z.of_nat n < HASHSIZE)) as [Hn|Hn].
  - rewrite lookup_seqZ_lt by done. simpl. rewrite Z.add_0_l.
    rewrite <- (Nat2Z.id n) at 2. symmetry. apply (bucket_lookup A); [done|lia].
  - rewrite lookup_seqZ_ge by lia. simpl. symmetry. apply lookup_ge_None.
    rewrite (wf_length A d Hwf). unfold HASHSIZE in *. lia.
Qed.

(** [hd_print] returns on every valid table. *)
Lemma hd_print_defined (A : abi) (d : hd_hashdict) :
  hd_wf A d -> exists text, hd_print (Some d) = Ret text.
Proof.
  intros Hwf. unfold hd_print. destruct (num_entries d =? 0); [by eexists|].
  destruct (print_buckets_rows A d (seqZ 0 HASHSIZE) Hwf) as (rows & -> & _).
  { apply Forall_forall. intros i Hi%elem_of_seqZ. lia. }
  by eexists.
Qed.

(** X18.  The printed table.  For a valid table [hd_print] returns.  With
    no entries it prints the statistics box and "Dictionary is empty".
    Otherwise it prints, between the table head and foot, exactly one row
    per reachable node, bucket after bucket and within a bucket in chain
    order; every row is 86 bytes long, whatever the lengths of the key and
    the value. *)
Theorem hd_print_one_row_per_node (A : abi) (d : hd_hashdict) :
  hd_wf A d ->
  (num_entries d = 0 ->
   hd_print (Some d) = Ret (print_stats d +:+ "Dictionary is empty" +:+ nl)) /\
  (num_entries d <> 0 ->
   exists rows : list string,
     hd_print (Some d)
     = Ret (print_stats d +:+ print_table_head +:+ str_concat rows +:+ print_table_foot) /\
     length rows = node_count d /\
     Z.of_nat (length rows) = num_entries d /\
     Forall (fun r => String.length r = 86%nat) rows /\
     Forall2 (fun r e => exists i, 0 <= i < HASHSIZE /\ e ∈ bucket d i /\ print_row i e = Ret r)
       rows (nodes d)).
Proof.
  intros Hwf. unfold hd_print. split.
  - intros ->. done.
  - intros Hne. destruct (Z.eqb_spec (num_entries d) 0) as [|_]; [done|].
    destruct (print_buckets_rows A d (seqZ 0 HASHSIZE) Hwf) as (rows & Hp & Hl & Hr).
    { apply Forall_forall. intros i Hi%elem_of_seqZ. lia. }
    rewrite (entries_buckets A d Hwf) in Hr. fold (nodes d) in Hr.
    exists rows. rewrite Hp. split; [done|].
    assert (Hlen : length rows = node_count d) by (by apply Forall2_length in Hr).
    split; [done|]. split; [|by split].
    destruct Hwf as (_ & -> & _). by rewrite Hlen.
Qed.

Lemma hd_print_one_row_per_node_witness :
  exists rows : list string,
    hd_print (Some (inserted lp64 hd_create "a" "1"))
    = Ret (print_stats (inserted lp64 hd_create "a" "1") +:+ print_table_head +:+
           str_concat rows +:+ print_table_foot) /\
    length rows = 1%nat.
Proof.
  destruct (hd_print_one_row_per_node lp64 (inserted lp64 hd_create "a" "1")
              (hd_wf_inserted_create lp64 "a" "1")) as [_ H].
  destruct (H ltac:(vm_compute; discriminate)) as (rows & H1 & H2 & _).
  exists rows. split; [exact H1|]. rewrite H2. vm_compute. reflexivity.
Defined.

(** ** hashdict_demo.c *)

Lemma charset_at_range :
  Forall (fun k => uchar (charset_at k) <> 0 /\
                   charset_at k ∈ list_ascii_of_string charset)
    (seqZ 0 (Z.of_nat (String.length charset))).
Proof. apply (bool_decide_unpack _). vm_compute. exact I. Qed.

Lemma random_index_range rand pos :
  0 <= random_index rand pos < Z.of_nat (String.length charset).
Proof. unfold random_index. apply Z.mod_pos_bound. simpl. lia. Qed.

Lemma random_chars_text rand pos n :
  strlen (random_chars rand pos n) = Z.of_nat n /\
  c_str (random_chars rand pos n) = random_chars rand pos n /\
  Forall (fun c => c ∈ list_ascii_of_string charset)
    (list_ascii_of_string (random_chars rand pos n)).
Proof.
  revert pos. induction n as [|n IH]; intros pos; [by repeat split|].
  destruct (IH (S pos)) as (Hl & Hc & Hall).
  pose proof charset_at_range as Hcs. rewrite Forall_forall in Hcs.
  destruct (Hcs (random_index rand pos)) as [Hnz Hin].
  { apply elem_of_seqZ. pose proof (random_index_range rand pos). lia. }
  cbn [random_chars strlen c_str list_ascii_of_string].
  destruct (Z.eqb_spec (uchar (charset_at (random_index rand pos))) 0) as [|_]; [done|].
  split; [lia|]. split; [by rewrite Hc|]. by apply Forall_cons.
Qed.

(** With a [length] the buffer can take, [generate_random_string] returns a
    NUL-free text of [length - 1] bytes. *)
Lemma generate_random_string_spec (rand : nat -> N) (pos : nat) (size length : Z) :
  1 <= length <= size ->
  exists s,
    generate_random_string rand pos size length
    = Ret (s, (pos + Z.to_nat (length - 1))%nat) /\
    strlen s = length - 1 /\ c_str s = s.
Proof.
  intros [H1 H2]. unfold generate_random_string.
  destruct (Z.leb_spec 1 length); [|lia]. destruct (Z.leb_spec length size); [|lia].
  destruct (random_chars_text rand pos (Z.to_nat (length - 1))) as (Hl & Hc & _).
  eexists. split; [done|]. split; [lia|done].
Qed.

(** X19.  [generate_random_string] with a [length] from 1 up to the size of
    the buffer leaves a NUL-terminated text of exactly [length - 1] bytes in
    it, every byte taken from [charset], and has called [rand] [length - 1]
    times.  For any other [length] the terminator, or the bytes before it,
    are written outside the buffer. *)
Theorem generate_random_string_fills (rand : nat -> N) (pos : nat) (size length : Z) :
  (1 <= length <= size ->
   exists s,
     generate_random_string rand pos size length
     = Ret (s, (pos + Z.to_nat (length - 1))%nat) /\
     strlen s = length - 1 /\
     c_str s = s /\
     Z.of_nat (String.length s) + 1 <= size /\
     Forall (fun c => c ∈ list_ascii_of_string charset) (list_ascii_of_string s)) /\
  (length < 1 \/ size < length ->
   generate_random_string rand pos size length = Undefined).
Proof.
  unfold generate_random_string. split.
  - intros [H1 H2].
    destruct (Z.leb_spec 1 length); [|lia]. destruct (Z.leb_spec length size); [|lia].
    destruct (random_chars_text rand pos (Z.to_nat (length - 1))) as (Hl & Hc & Hall).
    eexists. split; [done|]. split; [lia|]. split; [done|]. split; [|done].
    rewrite <- Hc, <- strlen_length. lia.
  - intros [H|H].
    + by destruct (Z.leb_spec 1 length); [lia|].
    + destruct (Z.leb_spec length size); [lia|]. by rewrite andb_false_r.
Qed.

Lemma generate_random_string_fills_witness :
  exists s, generate_random_string (fun n => N.of_nat n) 0 20 6 = Ret (s, 5%nat) /\ strlen s = 5.
Proof.
  destruct (generate_random_string_fills (fun n => N.of_nat n) 0 20 6) as [H _].
  destruct (H ltac:(lia)) as (s & H1 & H2 & _).
  exists s. split; [exact H1|exact H2].
Defined.

Lemma nodes_count_collision d h : nodes (count_collision d h) = nodes d.
Proof. unfold count_collision. by destruct (bucket d h). Qed.

Lemma nodes_inserted_elem A d key v e :
  hd_wf A d ->
  e ∈ nodes (inserted A d key v) <-> e ∈ nodes d \/ e = Entry (c_str key) (c_str v).
Proof.
  intros Hwf.
  destruct (nodes_replace A d (inserted A d key v) (hd_hash A key)
              (bucket d (hd_hash A key) ++ [Entry (c_str key) (c_str v)]) Hwf
              (hd_hash_range A key) eq_refl) as (N1 & N2 & -> & ->).
  rewrite !elem_of_app, list_elem_of_singleton. tauto.
Qed.

Lemma demo_round_inv A rand m pos d e i :
  m.1.2 = true -> m.2 = true -> 0 <= i < NUM_ENTRIES -> demo_inv A i d e ->
  exists pos' d' e',
    demo_round A rand m pos d e = Ret (pos', d', e') /\ demo_inv A (i + 1) d' e'.
Proof.
  intros Hmk Hmv Hi (Hwf & Hn & He & Hlen). unfold demo_round.
  pose proof (Z.mod_pos_bound (Z.of_N (rand pos)) 11 ltac:(lia)) as Hk11.
  destruct (generate_random_string_spec rand (S pos) 20 (5 + Z.of_N (rand pos) mod 11))
    as (k & -> & Hkl & Hkc); [lia|]. cbn [mbind outcome_bind fst snd].
  set (pos1 := (S pos + Z.to_nat (5 + Z.of_N (rand pos) mod 11 - 1))%nat).
  pose proof (Z.mod_pos_bound (Z.of_N (rand pos1)) 71 ltac:(lia)) as Hv71.
  destruct (generate_random_string_spec rand (S pos1) 100 (10 + Z.of_N (rand pos1) mod 71))
    as (v & -> & Hvl & Hvc); [lia|]. cbn [mbind outcome_bind fst snd].
  rewrite (hd_entry_insert_eq A) by done.
  destruct m as [[m_node m_key] m_val]. simpl in Hmk, Hmv. subst m_key m_val.
  cbn [fst snd].
  assert (Hfk : fits k = true) by (unfold fits, UINT_MAX; apply Z.leb_le; lia).
  assert (Hfv : fits v = true) by (unfold fits, UINT_MAX; apply Z.leb_le; lia).
  destruct (decide (c_str k ∈ table_keys d)) as [Hst|Hst].
  { eexists _, d, (e + 1). split; [reflexivity|].
    split; [done|]. split; [lia|]. split; [lia|done]. }
  rewrite table_keys_elem in Hst. destruct m_node; cbn [negb].
  - rewrite Hfk, Hfv. cbn [andb]. eexists _, (inserted A d k v), e. split; [reflexivity|].
    assert (Hmax : num_entries d < UINT_MAX) by (unfold UINT_MAX, NUM_ENTRIES in *; lia).
    split; [by apply wf_inserted|]. split; [|split; [done|]].
    + cbn. rewrite to_uint_small; unfold UINT_MAX, NUM_ENTRIES in *; [lia|].
      destruct Hwf as (_ & Hc & _). lia.
    + intros k' v' [Hin|[= -> ->]]%(nodes_inserted_elem A d k v _ Hwf); [by apply Hlen|].
      rewrite !strlen_c_str. lia.
  - eexists _, (count_collision d (hd_hash A k)), (e + 1). split; [reflexivity|].
    split; [by apply wf_count_collision|].
    split; [|split; [lia|]].
    + unfold count_collision. destruct (bucket d (hd_hash A k)); cbn; lia.
    + intros k' v'. rewrite nodes_count_collision. apply Hlen.
Qed.

Lemma demo_loop_inv A rand m (n : nat) (i : nat) pos d e :
  (forall j, (m j).1.2 = true /\ (m j).2 = true) ->
  Z.of_nat i + Z.of_nat n <= NUM_ENTRIES -> demo_inv A (Z.of_nat i) d e ->
  exists pos' d' e',
    demo_loop A rand m n i pos d e = Ret (pos', d', e') /\
    demo_inv A (Z.of_nat i + Z.of_nat n) d' e'.
Proof.
  intros Hm. revert i pos d e. induction n as [|n IH]; intros i pos d e Hle Hinv.
  { exists pos, d, e. split; [done|]. by rewrite Z.add_0_r. }
  destruct (Hm i) as [Hmk Hmv].
  destruct (demo_round_inv A rand (m i) pos d e (Z.of_nat i) Hmk Hmv ltac:(lia) Hinv)
    as (pos1 & d1 & e1 & Hround & Hinv1).
  replace (Z.of_nat i + 1) with (Z.of_nat (S i)) in Hinv1 by lia.
  destruct (IH (S i) pos1 d1 e1 ltac:(lia) Hinv1) as (pos' & d' & e' & Hloop & Hinv').
  exists pos', d', e'. cbn [demo_loop]. rewrite Hround. cbn [mbind outcome_bind fst snd].
  split; [done|]. replace (Z.of_nat i + Z.of_nat (S n)) with (Z.of_nat (S i) + Z.of_nat n) by lia.
  done.
Qed.

(** X20.  The demo program.  Whatever numbers [rand] returns, and whether
    or not the node allocations succeed, as long as the string copies do,
    [main] stays within defined behaviour and returns 0: every generated
    key (4 to 14 bytes) and value (9 to 79 bytes) fits its buffer, each of
    the 1000 inserts either adds an entry or is counted as an error, so
    that after the loop [num_entries + error_count = 1000]; [hd_print]
    prints the table and [hd_free] leaves no entry and no node. *)
Theorem demo_main_counts_every_insert (A : abi) (rand : nat -> N)
    (m : nat -> bool * bool * bool) :
  (forall j, (m j).1.2 = true /\ (m j).2 = true) ->
  exists res freed,
    demo_main A rand m = Ret res /\
    demo_return res = 0 /\
    hd_wf A (demo_filled res) /\
    num_entries (demo_filled res) + demo_errors res = NUM_ENTRIES /\
    0 <= demo_errors res /\
    (forall k v, Entry k v ∈ nodes (demo_filled res) ->
                 4 <= strlen k <= 14 /\ 9 <= strlen v <= 79) /\
    hd_print (Some (demo_filled res)) = Ret (demo_text res) /\
    demo_freed res = Some freed /\
    num_entries freed = 0 /\ nodes freed = [].
Proof.
  intros Hm. unfold demo_main.
  destruct (demo_loop_inv A rand m (Z.to_nat NUM_ENTRIES) 0 0 hd_create 0 Hm)
    as (pos & d & e & Hloop & Hwf & Hn & He & Hlen).
  { unfold NUM_ENTRIES. lia. }
  { split; [apply hd_wf_create|]. split; [done|]. split; [done|].
    intros k v Hin. destruct (not_stored_create k). by exists v. }
  rewrite Hloop. cbn [mbind outcome_bind fst snd].
  destruct (hd_print_defined A d Hwf) as [text Hprint]. rewrite Hprint. cbn [mbind outcome_bind].
  destruct (hd_free_spec A d Hwf) as (d1 & Hfree & _ & Hnodes & Hnum & _).
  rewrite Hfree. cbn [mbind outcome_bind].
  eexists _, d1. split; [done|]. cbn [demo_return demo_filled demo_errors demo_text demo_freed].
  split; [done|]. split; [done|].
  split; [rewrite Hn; unfold NUM_ENTRIES; lia|].
  split; [done|]. split; [done|]. split; [done|]. split; [done|]. by split.
Qed.

Lemma demo_main_counts_every_insert_witness :
  exists res freed,
    demo_main lp64 (fun n => N.of_nat n) (fun _ => (true, true, true)) = Ret res /\
    demo_return res = 0 /\
    hd_wf lp64 (demo_filled res) /\
    num_entries (demo_filled res) + demo_errors res = NUM_ENTRIES /\
    demo_freed res = Some freed.
Proof.
  destruct (demo_main_counts_every_insert lp64 (fun n => N.of_nat n)
              (fun _ => (true, true, true)) ltac:(intros j; split; reflexivity))
    as (res & freed & H1 & H2 & H3 & H4 & _ & _ & _ & H5 & _).
  exists res, freed.
  split; [exact H1|split; [exact H2|split; [exact H3|split; [exact H4|exact H5]]]].
Defined.

(** ** hd_create *)

(** X21.  A table fresh from [hd_create] is valid and holds nothing: for
    every key the lookup returns NULL, and a remove or an update returns
    -EINVAL and leaves the table as created, whatever value and allocator
    the update meets. *)
Theorem hd_create_is_empty (A : abi) (m_val : bool) (key : string) (value : option string) :
  hd_wf A hd_create /\
  nodes hd_create = [] /\
  table_map hd_create = ∅ /\
  hd_lookup A (Some hd_create) (Some key) = Ret None /\
  hd_entry_remove A (Some hd_create) (Some key) = Ret (- EINVAL, Some hd_create) /\
  hd_entry_update A m_val (Some hd_create) (Some key) value
  = Ret (- EINVAL, Some hd_create).
Proof.
  split; [apply hd_wf_create|]. split; [|split; [apply table_map_create|]].
  - unfold nodes, hd_create. cbn [entries]. apply join_replicate_nil.
  - split; [|split].
    + rewrite hd_lookup_map by apply hd_wf_create. by rewrite table_map_create, lookup_empty.
    + destruct (hd_entry_remove_eq A hd_create key (hd_wf_create A))
        as [(pre & v & post & Hb & _)|[_ Heq]]; [|done].
      destruct (not_stored_create (c_str key)). exists v.
      apply (bucket_nodes A _ (hd_hash A key)); [apply hd_wf_create|apply hd_hash_range|].
      rewrite Hb, elem_of_app, elem_of_cons. tauto.
    + destruct (hd_entry_update_eq A m_val hd_create key value (hd_wf_create A))
        as [(pre & v & post & Hb & _)|[_ Heq]]; [|done].
      destruct (not_stored_create (c_str key)). exists v.
      apply (bucket_nodes A _ (hd_hash A key)); [apply hd_wf_create|apply hd_hash_range|].
      rewrite Hb, elem_of_app, elem_of_cons. tauto.
Qed.
